(** * utf32: conversion between UTF-32 code points and UTF-8 bytes

    A shallow embedding of [utf32.go].  Go's [uint32] and [byte] values are
    integers of [Z] with the wrap-around of every arithmetic operation written
    out ([u32], [u8]); a [string] and a [[]byte] are lists of bytes, a
    [[]UTF32] is a list of code points.  A Go result [(v, err)] is the pair
    [(v, e)] where [e = None] stands for the [nil] error. *)

From Stdlib Require Import ZArith Lia.
From stdpp Require Import base decidable list.
From Equations Require Import Equations.

Local Open Scope Z_scope.

(** ** Data *)

(** [type UTF32 uint32] *)
Definition UTF32 := Z.
Definition byte := Z.

(** Conversions to [uint32] and to [byte] keep the low 32 and 8 bits. *)
Definition u32 (x : Z) : UTF32 := x mod 2 ^ 32.
Definition u8 (x : Z) : byte := x mod 2 ^ 8.

Definition is_byte (x : Z) : Prop := 0 <= x < 2 ^ 8.

(** [var trailingBytesForUTF8 = [256]byte{...}] *)
Definition trailingBytesForUTF8 : list byte := [
    0; 0; 0; 0; 0; 0; 0; 0; 0; 0; 0; 0; 0; 0; 0; 0; 0; 0; 0; 0; 0; 0; 0; 0; 0; 0; 0; 0; 0; 0; 0; 0;
    0; 0; 0; 0; 0; 0; 0; 0; 0; 0; 0; 0; 0; 0; 0; 0; 0; 0; 0; 0; 0; 0; 0; 0; 0; 0; 0; 0; 0; 0; 0; 0;
    0; 0; 0; 0; 0; 0; 0; 0; 0; 0; 0; 0; 0; 0; 0; 0; 0; 0; 0; 0; 0; 0; 0; 0; 0; 0; 0; 0; 0; 0; 0; 0;
    0; 0; 0; 0; 0; 0; 0; 0; 0; 0; 0; 0; 0; 0; 0; 0; 0; 0; 0; 0; 0; 0; 0; 0; 0; 0; 0; 0; 0; 0; 0; 0;
    0; 0; 0; 0; 0; 0; 0; 0; 0; 0; 0; 0; 0; 0; 0; 0; 0; 0; 0; 0; 0; 0; 0; 0; 0; 0; 0; 0; 0; 0; 0; 0;
    0; 0; 0; 0; 0; 0; 0; 0; 0; 0; 0; 0; 0; 0; 0; 0; 0; 0; 0; 0; 0; 0; 0; 0; 0; 0; 0; 0; 0; 0; 0; 0;
    1; 1; 1; 1; 1; 1; 1; 1; 1; 1; 1; 1; 1; 1; 1; 1; 1; 1; 1; 1; 1; 1; 1; 1; 1; 1; 1; 1; 1; 1; 1; 1;
    2; 2; 2; 2; 2; 2; 2; 2; 2; 2; 2; 2; 2; 2; 2; 2; 3; 3; 3; 3; 3; 3; 3; 3; 4; 4; 4; 4; 5; 5; 5; 5
  ].

(** [var offsetsFromUTF8 = [6]UTF32{...}] *)
Definition offsetsFromUTF8 : list UTF32 := [
    0x00000000;
    0x00003080;
    0x000E2080;
    0x03C82080;
    0xFA082080;
    0x82082080
  ].

(** [var firstByteMark = [7]byte{...}] *)
Definition firstByteMark : list byte :=
  [0x00; 0x00; 0xC0; 0xE0; 0xF0; 0xF8; 0xFC].

(** Bound constants. *)
Definition UniSurHighStart : UTF32 := 0xd800.
Definition UniSurLowEnd : UTF32 := 0xdfff.
Definition UniMaxLegalUTF32 : UTF32 := 0x0010ffff.

(** Mask constants. *)
Definition byteMask : Z := 0xbf.
Definition byteMark : Z := 0x80.

(** Common errors. *)
Inductive error : Set := ErrInvalidSource.

(** Indexing a Go array, slice or string by an integer.  Every index the
    program uses is in range: the tables are read at a byte and at a
    trailing-byte count, [src] below [len(src)] once the bounds check has
    passed (the definitions with checked indices below redo both conversions
    with these checks).  Out of range Go panics; the total lookup here yields
    a default value. *)
Definition at_index (l : list Z) (i : Z) : Z := l !!! Z.to_nat i.

(** ** The encoder *)

(** [func lookupBytesToWrite(ch UTF32) (int, error)] *)
Definition lookupBytesToWrite (ch : UTF32) : Z * option error :=
  if ch <? 0x80 then (1, None)
  else if ch <? 0x800 then (2, None)
  else if ch <? 0x10000 then (3, None)
  else if ch <=? UniMaxLegalUTF32 then (4, None)
  else (-1, Some ErrInvalidSource).

(** One continuation byte: [byte((int(ch) | byteMark) & byteMask)]. *)
Definition continuation (ch : UTF32) : byte :=
  u8 (Z.land (Z.lor ch byteMark) byteMask).

(** The arms of [switch bytesToWrite], each falling through to the next.
    [ret] has been extended by [bytesToWrite] bytes from [idx], so the writes
    are in range ([<[i:=x]>] leaves a list unchanged out of range, where Go
    panics). *)
Definition case1 (bytesToWrite : Z) (ch : UTF32) (idx : nat) (ret : list byte)
  : list byte :=
  <[idx := u8 (Z.lor ch (at_index firstByteMark bytesToWrite))]> ret.

Definition case2 (bytesToWrite : Z) (ch : UTF32) (idx : nat) (ret : list byte)
  : list byte :=
  let ret := <[(idx + 1)%nat := continuation ch]> ret in
  let ch := Z.shiftr ch 6 in
  case1 bytesToWrite ch idx ret.

Definition case3 (bytesToWrite : Z) (ch : UTF32) (idx : nat) (ret : list byte)
  : list byte :=
  let ret := <[(idx + 2)%nat := continuation ch]> ret in
  let ch := Z.shiftr ch 6 in
  case2 bytesToWrite ch idx ret.

Definition case4 (bytesToWrite : Z) (ch : UTF32) (idx : nat) (ret : list byte)
  : list byte :=
  let ret := <[(idx + 3)%nat := continuation ch]> ret in
  let ch := Z.shiftr ch 6 in
  case3 bytesToWrite ch idx ret.

Definition write_bytes (bytesToWrite : Z) (ch : UTF32) (idx : nat)
  (ret : list byte) : list byte :=
  match bytesToWrite with
  | 4 => case4 bytesToWrite ch idx ret
  | 3 => case3 bytesToWrite ch idx ret
  | 2 => case2 bytesToWrite ch idx ret
  | 1 => case1 bytesToWrite ch idx ret
  | _ => ret
  end.

(** The body of [for _, ch := range src], threading [ret] and [idx]. *)
Fixpoint encode_loop (src : list UTF32) (ret : list byte) (idx : nat)
  : list byte * option error :=
  match src with
  | [] => (ret, None)
  | ch :: src' =>
      if (UniSurHighStart <=? ch) && (ch <=? UniSurLowEnd)
      then ([], Some ErrInvalidSource)
      else
        match lookupBytesToWrite ch with
        | (_, Some err) => ([], Some err)
        | (bytesToWrite, None) =>
            let ret := ret ++ replicate (Z.to_nat bytesToWrite) 0 in
            let ret := write_bytes bytesToWrite ch idx ret in
            encode_loop src' ret (idx + Z.to_nat bytesToWrite)%nat
        end
  end.

(** [func ConvertUTF32toUTF8(src []UTF32) (string, error)] *)
Definition ConvertUTF32toUTF8 (src : list UTF32) : list byte * option error :=
  encode_loop src [] 0%nat.

(** ** The decoder *)

(** The inner loop [for j := 0; j < int(extraBytesToRead); j++], from cursor
    [i] and accumulator [ch]; returns the cursor and the accumulator. *)
Fixpoint read_extra (n : nat) (src : list byte) (i : nat) (ch : UTF32)
  : nat * UTF32 :=
  match n with
  | O => (i, ch)
  | S n' =>
      let ch := u32 (ch + at_index src (Z.of_nat i)) in
      let i := S i in
      let ch := u32 (Z.shiftl ch 6) in
      read_extra n' src i ch
  end.

(** What one pass of the outer loop computes at cursor [i] once the bounds
    check has passed: the cursor of the last byte read and the accumulated
    value, before the range check. *)
Definition decode_char (src : list byte) (i : nat) : nat * UTF32 :=
  let extraBytesToRead := at_index trailingBytesForUTF8 (at_index src (Z.of_nat i)) in
  let '(i', ch) := read_extra (Z.to_nat extraBytesToRead) src i 0 in
  (i', u32 (ch + u32 (at_index src (Z.of_nat i')
                      - at_index offsetsFromUTF8 extraBytesToRead))).

Definition truncated (src : list byte) (i : nat) : bool :=
  Z.of_nat (length src) <=?
    Z.of_nat i + at_index trailingBytesForUTF8 (at_index src (Z.of_nat i)).

Definition out_of_range (ch : UTF32) : bool :=
  (UniMaxLegalUTF32 <? ch) || ((UniSurHighStart <=? ch) && (ch <=? UniSurLowEnd)).

(** The loop [for i := 0; i < len(src); i++] from cursor [i] with result
    [ret]. *)
Equations? decode_loop (src : list byte) (i : nat) (ret : list UTF32)
  : list UTF32 * option error by wf (length src - i)%nat lt :=
  decode_loop src i ret with decide (i < length src)%nat => {
    | right _ => (ret, None)
    | left _ =>
        if truncated src i then ([], Some ErrInvalidSource)
        else if out_of_range (snd (decode_char src i))
             then ([], Some ErrInvalidSource)
             else decode_loop src (S (fst (decode_char src i)))
                    (ret ++ [snd (decode_char src i)]) }.
Proof.
  assert (F : forall n j c, fst (read_extra n src j c) = (j + n)%nat).
  { induction n as [|n IH]; intros j c; simpl; [lia|]. rewrite IH. lia. }
  unfold decode_char.
  specialize (F (Z.to_nat (at_index trailingBytesForUTF8 (at_index src (Z.of_nat i)))) i 0).
  destruct (read_extra _ src i 0) as [i' ch]. simpl in *. lia.
Qed.

(** [func ConvertUTF8toUTF32(src string) ([]UTF32, error)] *)
Definition ConvertUTF8toUTF32 (src : list byte) : list UTF32 * option error :=
  decode_loop src 0%nat [].

(** ** Definitions used to state the properties *)

(** Bounded checks by enumeration. *)
Fixpoint all_below (n : nat) (P : Z -> bool) : bool :=
  match n with
  | O => true
  | S n' => P (Z.of_nat n') && all_below n' P
  end.

(** The table [trailingBytesForUTF8] read by ranges of the lead byte. *)
Definition trailing_by_range (b : byte) : Z :=
  if b <? 0xC0 then 0 else if b <? 0xE0 then 1 else if b <? 0xF0 then 2
  else if b <? 0xF8 then 3 else if b <? 0xFC then 4 else 5.

(** The bytes one pass of the encoder loop writes for [ch]: the arms of the
    switch run on a fresh block of [bytesToWrite] zero bytes. *)
Definition char_bytes (ch : UTF32) : list byte :=
  let bytesToWrite := fst (lookupBytesToWrite ch) in
  write_bytes bytesToWrite ch 0 (replicate (Z.to_nat bytesToWrite) 0).

Definition surrogate (ch : UTF32) : bool :=
  (UniSurHighStart <=? ch) && (ch <=? UniSurLowEnd).

(** The code points the encoder accepts. *)
Definition encodable (ch : UTF32) : bool :=
  negb (surrogate ch) && (ch <=? UniMaxLegalUTF32).

(** A legal code point: below 0x110000 and not a surrogate. *)
Definition legal (ch : UTF32) : Prop :=
  0 <= ch < 0x110000 /\ ~ (0xD800 <= ch <= 0xDFFF).

(** The number of trailing bytes the byte at cursor [i] claims. *)
Definition extra_at (src : list byte) (i : nat) : Z :=
  at_index trailingBytesForUTF8 (at_index src (Z.of_nat i)).

(** The cursors at which the outer loop starts a character: 0, and the cursor
    past each character that is not truncated.  The byte at such a cursor is
    a lead byte. *)
Inductive char_start (src : list byte) : nat -> Prop :=
| char_start_first : char_start src 0
| char_start_next i :
    char_start src i -> (i < length src)%nat -> truncated src i = false ->
    char_start src (S (i + Z.to_nat (extra_at src i))).

(** Byte length by range, as the specification words it. *)
Definition byte_length_by_range (ch : UTF32) : nat :=
  if ch <? 0x80 then 1
  else if ch <? 0x800 then 2
  else if ch <? 0x10000 then 3
  else 4.

Definition sum_nat (l : list nat) : nat := foldr Nat.add 0%nat l.

(** Prepending earlier results to the outcome of a conversion. *)
Definition prepend {A : Type} (pre : list A) (r : list A * option error)
  : list A * option error :=
  match r with
  | (s, None) => (pre ++ s, None)
  | (_, Some e) => ([], Some e)
  end.

(** ** UTF-8 forms *)

(** The [k]-byte UTF-8 form of [ch], its bits padded with zeros on the left:
    the shortest form when [k] is the length the encoder chooses, an overlong
    form otherwise. *)
Definition padded_form (k : nat) (ch : UTF32) : list byte :=
  let c j := 0x80 + (ch / 2 ^ (6 * j)) mod 64 in
  match k with
  | 2%nat => [0xC0 + ch / 2 ^ 6; c 0]
  | 3%nat => [0xE0 + ch / 2 ^ 12; c 1; c 0]
  | 4%nat => [0xF0 + ch / 2 ^ 18; c 2; c 1; c 0]
  | 5%nat => [0xF8 + ch / 2 ^ 24; c 3; c 2; c 1; c 0]
  | 6%nat => [0xFC + ch / 2 ^ 30; c 4; c 3; c 2; c 1; c 0]
  | _ => [ch]
  end.

(** The values that fit in the [k]-byte form. *)
Definition form_capacity (k : nat) : Z :=
  match k with
  | 1%nat => 2 ^ 7
  | 2%nat => 2 ^ 11
  | 3%nat => 2 ^ 16
  | 4%nat => 2 ^ 21
  | 5%nat => 2 ^ 26
  | _ => 2 ^ 31
  end.

(** ** Index checks

    Go checks every index against the length and panics when it is out of
    range.  The definitions below redo both conversions with the checks made
    explicit: [None] stands for the panic. *)

(** [l[i]] *)
Definition index_checked (l : list Z) (i : Z) : option Z :=
  if i <? 0 then None else l !! Z.to_nat i.

(** [l[i] = x] *)
Definition store_checked (l : list Z) (i : nat) (x : Z) : option (list Z) :=
  if decide (i < length l)%nat then Some (<[i := x]> l) else None.

Definition case1_checked (bytesToWrite : Z) (ch : UTF32) (idx : nat)
  (ret : list byte) : option (list byte) :=
  mark ← index_checked firstByteMark bytesToWrite;
  store_checked ret idx (u8 (Z.lor ch mark)).

Definition case2_checked (bytesToWrite : Z) (ch : UTF32) (idx : nat)
  (ret : list byte) : option (list byte) :=
  ret ← store_checked ret (idx + 1)%nat (continuation ch);
  case1_checked bytesToWrite (Z.shiftr ch 6) idx ret.

Definition case3_checked (bytesToWrite : Z) (ch : UTF32) (idx : nat)
  (ret : list byte) : option (list byte) :=
  ret ← store_checked ret (idx + 2)%nat (continuation ch);
  case2_checked bytesToWrite (Z.shiftr ch 6) idx ret.

Definition case4_checked (bytesToWrite : Z) (ch : UTF32) (idx : nat)
  (ret : list byte) : option (list byte) :=
  ret ← store_checked ret (idx + 3)%nat (continuation ch);
  case3_checked bytesToWrite (Z.shiftr ch 6) idx ret.

Definition write_bytes_checked (bytesToWrite : Z) (ch : UTF32) (idx : nat)
  (ret : list byte) : option (list byte) :=
  match bytesToWrite with
  | 4 => case4_checked bytesToWrite ch idx ret
  | 3 => case3_checked bytesToWrite ch idx ret
  | 2 => case2_checked bytesToWrite ch idx ret
  | 1 => case1_checked bytesToWrite ch idx ret
  | _ => Some ret
  end.

Fixpoint encode_loop_checked (src : list UTF32) (ret : list byte) (idx : nat)
  : option (list byte * option error) :=
  match src with
  | [] => Some (ret, None)
  | ch :: src' =>
      if (UniSurHighStart <=? ch) && (ch <=? UniSurLowEnd)
      then Some ([], Some ErrInvalidSource)
      else
        match lookupBytesToWrite ch with
        | (_, Some err) => Some ([], Some err)
        | (bytesToWrite, None) =>
            let ret := ret ++ replicate (Z.to_nat bytesToWrite) 0 in
            ret ← write_bytes_checked bytesToWrite ch idx ret;
            encode_loop_checked src' ret (idx + Z.to_nat bytesToWrite)%nat
        end
  end.

Definition ConvertUTF32toUTF8_checked (src : list UTF32)
  : option (list byte * option error) :=
  encode_loop_checked src [] 0%nat.

Fixpoint read_extra_checked (n : nat) (src : list byte) (i : nat) (ch : UTF32)
  : option (nat * UTF32) :=
  match n with
  | O => Some (i, ch)
  | S n' =>
      b ← index_checked src (Z.of_nat i);
      let ch := u32 (ch + b) in
      let i := S i in
      let ch := u32 (Z.shiftl ch 6) in
      read_extra_checked n' src i ch
  end.

(** How one pass of the decoder loop ends: with a failure, or with a code
    point and the cursor of its last byte. *)
Inductive pass : Set :=
| PassFail (e : error)
| PassChar (i' : nat) (ch : UTF32).

(** One pass of the loop at cursor [i]; [None] is a panic. *)
Definition decode_pass_checked (src : list byte) (i : nat) : option pass :=
  b ← index_checked src (Z.of_nat i);
  extraBytesToRead ← index_checked trailingBytesForUTF8 b;
  if Z.of_nat (length src) <=? Z.of_nat i + extraBytesToRead
  then Some (PassFail ErrInvalidSource)
  else
    r ← read_extra_checked (Z.to_nat extraBytesToRead) src i 0;
    last ← index_checked src (Z.of_nat (fst r));
    offset ← index_checked offsetsFromUTF8 extraBytesToRead;
    let ch := u32 (snd r + u32 (last - offset)) in
    if out_of_range ch then Some (PassFail ErrInvalidSource)
    else Some (PassChar (fst r) ch).

Definition inspect {A : Type} (a : A) : {b : A | a = b} := exist _ a eq_refl.

Equations? decode_loop_checked (src : list byte) (i : nat) (ret : list UTF32)
  : option (list UTF32 * option error) by wf (length src - i)%nat lt :=
  decode_loop_checked src i ret with decide (i < length src)%nat => {
    | right _ => Some (ret, None)
    | left _ with inspect (decode_pass_checked src i) => {
        | exist _ None _ => None
        | exist _ (Some (PassFail e)) _ => Some ([], Some e)
        | exist _ (Some (PassChar i' ch)) _ =>
            decode_loop_checked src (S i') (ret ++ [ch]) } }.
Proof.
  assert (F : forall n j c r, read_extra_checked n src j c = Some r ->
                              fst r = (j + n)%nat).
  { induction n as [|n IH]; intros j c r; cbn [read_extra_checked].
    - intros [= <-]. cbn [fst]. lia.
    - destruct (index_checked src (Z.of_nat j)); [|discriminate].
      cbn [mbind option_bind]. intros E. rewrite (IH _ _ _ E). lia. }
  unfold decode_pass_checked in e.
  destruct (index_checked src (Z.of_nat i)) as [b|]; [|discriminate].
  cbn [mbind option_bind] in e.
  destruct (index_checked trailingBytesForUTF8 b) as [extra|]; [|discriminate].
  cbn [mbind option_bind] in e.
  destruct (Z.leb_spec (Z.of_nat (length src)) (Z.of_nat i + extra)) as [|Hb]; [discriminate|].
  destruct (read_extra_checked _ src i 0) as [r|] eqn:R; [|discriminate].
  cbn [mbind option_bind] in e.
  destruct (index_checked src _); [|discriminate].
  cbn [mbind option_bind] in e.
  destruct (index_checked offsetsFromUTF8 extra); [|discriminate].
  cbn [mbind option_bind] in e.
  destruct (out_of_range _); [discriminate|].
  injection e as <- _. specialize (F _ _ _ _ R).
  destruct r as [j c]. cbn [fst] in *. lia.
Qed.

Definition ConvertUTF8toUTF32_checked (src : list byte)
  : option (list UTF32 * option error) :=
  decode_loop_checked src 0%nat [].

(** ** The test of the package *)

(** [type testData struct] *)
Record testData : Set := {
  str : list byte;
  utf8len : Z;
  utf32len : Z
}.

(** How the test ends: without a failure, or at the call of [t.Fatal] or
    [t.Fatalf] that stops it. *)
Inductive test_outcome : Set :=
| Passed
| FatalError (err : error)
| FatalResult
| FatalUtf8Length
| FatalUtf32Length.

(** The body of the loop of [TestRoundTrip] for one element. *)
Definition check_elem (elem : testData) : test_outcome :=
  match ConvertUTF8toUTF32 (str elem) with
  | (_, Some err) => FatalError err
  | (utf32, None) =>
      match ConvertUTF32toUTF8 utf32 with
      | (_, Some err) => FatalError err
      | (str', None) =>
          if negb (bool_decide (str elem = str')) then FatalResult
          else if negb (utf8len elem =? Z.of_nat (length str'))
               then FatalUtf8Length
               else if negb (utf32len elem =? Z.of_nat (length utf32))
                    then FatalUtf32Length
                    else Passed
      end
  end.

(** [func TestRoundTrip(t *testing.T)], over its table [strs]. *)
Fixpoint TestRoundTrip (strs : list testData) : test_outcome :=
  match strs with
  | [] => Passed
  | elem :: strs' =>
      match check_elem elem with
      | Passed => TestRoundTrip strs'
      | fatal => fatal
      end
  end.

(** The elements the test is satisfied with: [str] is what the encoder
    returns for some legal code points, and the two lengths are theirs. *)
Definition well_formed_elem (elem : testData) : Prop :=
  exists s : list UTF32,
    Forall legal s /\
    ConvertUTF32toUTF8 s = (str elem, None) /\
    utf8len elem = Z.of_nat (length (str elem)) /\
    utf32len elem = Z.of_nat (length s).

(** ** Unfolding the decoder loop *)

Lemma read_extra_cursor n src i ch :
  fst (read_extra n src i ch) = (i + n)%nat.
Proof.
  revert i ch. induction n as [|n IH]; intros i ch; simpl.
  - lia.
  - rewrite IH. lia.
Qed.

Lemma decode_loop_eq src i ret :
  decode_loop src i ret =
  if decide (i < length src)%nat then
    if truncated src i then ([], Some ErrInvalidSource)
    else if out_of_range (snd (decode_char src i))
         then ([], Some ErrInvalidSource)
         else decode_loop src (S (fst (decode_char src i)))
                (ret ++ [snd (decode_char src i)])
  else (ret, None).
Proof.
  rewrite decode_loop_equation_1. destruct (decide _); reflexivity.
Qed.

Lemma all_below_spec n P :
  all_below n P = true -> forall x, 0 <= x < Z.of_nat n -> P x = true.
Proof.
  induction n as [|n IH]; simpl; intros H x Hx; [lia|].
  apply andb_prop in H as [H1 H2].
  destruct (Z.eq_dec x (Z.of_nat n)) as [-> | Hne]; [exact H1|].
  apply IH; [exact H2|lia].
Qed.

Lemma trailing_table b :
  is_byte b -> at_index trailingBytesForUTF8 b = trailing_by_range b.
Proof.
  intros Hb. apply Z.eqb_eq.
  apply (all_below_spec 256
           (fun b => at_index trailingBytesForUTF8 b =? trailing_by_range b)).
  - vm_compute. reflexivity.
  - exact Hb.
Qed.

Lemma u8_land x : u8 x = Z.land x 0xFF.
Proof. unfold u8. symmetry. apply (Z.land_ones x 8). lia. Qed.

Lemma continuation_eq ch : continuation ch = 0x80 + ch mod 64.
Proof.
  unfold continuation, byteMark, byteMask. rewrite u8_land.
  rewrite <- Z.land_assoc. change (Z.land 0xbf 0xFF) with 0xbf.
  rewrite Z.land_lor_distr_l. change (Z.land 0x80 0xbf) with 0x80.
  replace (Z.land ch 0xbf) with (Z.land (ch mod 256) 0xbf).
  2:{ change 256 with (2 ^ 8). rewrite <- (Z.land_ones ch 8) by lia.
      rewrite <- Z.land_assoc. reflexivity. }
  replace (ch mod 64) with ((ch mod 256) mod 64)
    by (Z.to_euclidean_division_equations; lia).
  assert (H : 0 <= ch mod 256 < 256) by (apply Z.mod_pos_bound; lia).
  revert H. generalize (ch mod 256). intros y Hy.
  apply Z.eqb_eq.
  apply (all_below_spec 256
           (fun y => Z.lor (Z.land y 0xbf) 0x80 =? 0x80 + y mod 64)).
  - vm_compute. reflexivity.
  - exact Hy.
Qed.

Lemma lead_byte m n y :
  all_below n (fun y => u8 (Z.lor y m) =? m + y) = true ->
  0 <= y < Z.of_nat n -> u8 (Z.lor y m) = m + y.
Proof.
  intros H Hy. apply Z.eqb_eq.
  exact (all_below_spec n (fun y => u8 (Z.lor y m) =? m + y) H y Hy).
Qed.

(** ** The encoder, one code point at a time *)

Lemma lookupBytesToWrite_cases ch :
  (ch <= UniMaxLegalUTF32 /\ snd (lookupBytesToWrite ch) = None /\
   1 <= fst (lookupBytesToWrite ch) <= 4) \/
  (UniMaxLegalUTF32 < ch /\
   lookupBytesToWrite ch = (-1, Some ErrInvalidSource)).
Proof.
  unfold lookupBytesToWrite, UniMaxLegalUTF32.
  repeat match goal with
         | |- context [?a <? ?b] => destruct (Z.ltb_spec a b)
         | |- context [?a <=? ?b] => destruct (Z.leb_spec a b)
         end; simpl; try (left; repeat split; lia); right; split; [lia|reflexivity].
Qed.

Lemma write_bytes_app n ch ret l :
  write_bytes n ch (length ret) (ret ++ l) = ret ++ write_bytes n ch 0 l.
Proof.
  unfold write_bytes, case4, case3, case2, case1.
  destruct n as [|p|p]; try reflexivity.
  destruct p as [[[p|p|]|[p|p|]|]|[[p|p|]|[p|p|]|]|]; try reflexivity;
    rewrite ?insert_app_r;
    rewrite <- (Nat.add_0_r (length ret)) at 1;
    rewrite insert_app_r; reflexivity.
Qed.

Lemma char_bytes_length ch :
  ch <= UniMaxLegalUTF32 ->
  length (char_bytes ch) = Z.to_nat (fst (lookupBytesToWrite ch)).
Proof.
  intros H. unfold char_bytes.
  destruct (lookupBytesToWrite_cases ch) as [(_ & _ & Hn)|[Hgt _]]; [|lia].
  set (n := fst (lookupBytesToWrite ch)) in *.
  assert (Hc : n = 1 \/ n = 2 \/ n = 3 \/ n = 4) by lia.
  destruct Hc as [-> | [-> | [-> | ->]]]; reflexivity.
Qed.

(** The encoder loop in closed form: it fails on the first code point that is
    not [encodable], and otherwise appends the bytes of each code point. *)
Lemma encode_loop_spec src : forall ret,
  encode_loop src ret (length ret) =
  if forallb encodable src
  then (ret ++ flat_map char_bytes src, None)
  else ([], Some ErrInvalidSource).
Proof.
  induction src as [|ch src IH]; intros ret; simpl.
  - rewrite app_nil_r. reflexivity.
  - unfold encodable at 1. fold (surrogate ch).
    destruct (surrogate ch); simpl; [reflexivity|].
    destruct (lookupBytesToWrite_cases ch) as [(Hle & He & Hn)|[Hgt E]].
    + destruct (lookupBytesToWrite ch) as [n e] eqn:E. simpl in He, Hn. subst e.
      apply Z.leb_le in Hle as Hle'. rewrite Hle'.
      rewrite write_bytes_app.
      assert (Hcb : write_bytes n ch 0 (replicate (Z.to_nat n) 0) = char_bytes ch)
        by (unfold char_bytes; rewrite E; reflexivity).
      rewrite Hcb.
      assert (Hlen : (length ret + Z.to_nat n)%nat = length (ret ++ char_bytes ch)).
      { rewrite length_app, char_bytes_length by exact Hle. rewrite E. reflexivity. }
      rewrite Hlen, IH. rewrite <- app_assoc. reflexivity.
    + rewrite E. apply Z.leb_gt in Hgt. rewrite Hgt. reflexivity.
Qed.

Lemma ConvertUTF32toUTF8_spec src :
  ConvertUTF32toUTF8 src =
  if forallb encodable src
  then (flat_map char_bytes src, None)
  else ([], Some ErrInvalidSource).
Proof. unfold ConvertUTF32toUTF8. apply (encode_loop_spec src []). Qed.

(** ** Decoding behind a prefix *)

Lemma at_index_app pre l (i : nat) :
  at_index (pre ++ l) (Z.of_nat (length pre + i)) = at_index l (Z.of_nat i).
Proof.
  unfold at_index. rewrite !Nat2Z.id.
  rewrite lookup_total_app_r by lia. f_equal. lia.
Qed.

Lemma read_extra_app n pre l : forall i ch,
  read_extra n (pre ++ l) (length pre + i) ch =
  ((length pre + fst (read_extra n l i ch))%nat, snd (read_extra n l i ch)).
Proof.
  induction n as [|n IH]; intros i ch; simpl; [reflexivity|].
  rewrite at_index_app.
  replace (S (length pre + i)) with (length pre + S i)%nat by lia.
  apply IH.
Qed.

Lemma decode_char_app pre l i :
  decode_char (pre ++ l) (length pre + i) =
  ((length pre + fst (decode_char l i))%nat, snd (decode_char l i)).
Proof.
  unfold decode_char. rewrite at_index_app, read_extra_app.
  destruct (read_extra _ l i 0) as [i' ch]. simpl.
  rewrite at_index_app. reflexivity.
Qed.

Lemma truncated_app pre l i :
  truncated (pre ++ l) (length pre + i) = truncated l i.
Proof.
  unfold truncated. rewrite at_index_app, length_app.
  destruct (Z.leb_spec (Z.of_nat (length l))
              (Z.of_nat i + at_index trailingBytesForUTF8 (at_index l (Z.of_nat i))));
    [apply Z.leb_le | apply Z.leb_gt]; lia.
Qed.

(** ** One encoded code point decodes to itself *)

Lemma legal_encodable ch : legal ch -> encodable ch = true.
Proof.
  intros [H1 H2]. unfold encodable, surrogate, UniSurHighStart, UniSurLowEnd,
    UniMaxLegalUTF32.
  apply andb_true_intro. split; [|apply Z.leb_le; lia].
  apply negb_true_iff, andb_false_iff.
  destruct (Z.leb_spec 0xd800 ch); [right; apply Z.leb_gt; lia | left; reflexivity].
Qed.

Lemma legal_in_range ch : legal ch -> out_of_range ch = false.
Proof.
  intros [H1 H2]. unfold out_of_range, UniSurHighStart, UniSurLowEnd,
    UniMaxLegalUTF32.
  apply orb_false_intro; [apply Z.ltb_ge; lia|].
  apply andb_false_iff.
  destruct (Z.leb_spec 0xd800 ch); [right; apply Z.leb_gt; lia | left; reflexivity].
Qed.


Ltac zdiv := Z.to_euclidean_division_equations; lia.

Ltac pick_length :=
  unfold char_bytes, lookupBytesToWrite, UniMaxLegalUTF32;
  repeat match goal with
         | |- context [?a <? ?b] =>
             destruct (Z.ltb_spec a b); [try lia | try lia]
         | |- context [?a <=? ?b] =>
             destruct (Z.leb_spec a b); [try lia | try lia]
         end;
  cbn [fst write_bytes]; unfold case4, case3, case2, case1;
  rewrite ?continuation_eq, ?Z.shiftr_shiftr, ?Z.shiftr_div_pow2 by lia.

Lemma char_bytes_1 ch : 0 <= ch < 0x80 -> char_bytes ch = [ch].
Proof.
  intros H. pick_length.
  change (at_index firstByteMark 1) with 0. rewrite Z.lor_0_r.
  unfold u8. rewrite Z.mod_small by lia. reflexivity.
Qed.

Lemma char_bytes_2 ch :
  0x80 <= ch < 0x800 -> char_bytes ch = [0xC0 + ch / 64; 0x80 + ch mod 64].
Proof.
  intros H. pick_length.
  change (at_index firstByteMark 2) with 0xC0.
  rewrite (lead_byte 0xC0 32) by (reflexivity || (change (2 ^ 6) with 64; zdiv)).
  reflexivity.
Qed.

Lemma char_bytes_3 ch :
  0x800 <= ch < 0x10000 ->
  char_bytes ch = [0xE0 + ch / 4096; 0x80 + (ch / 64) mod 64; 0x80 + ch mod 64].
Proof.
  intros H. pick_length.
  change (at_index firstByteMark 3) with 0xE0.
  change (2 ^ (6 + 6)) with 4096. change (2 ^ 6) with 64.
  rewrite (lead_byte 0xE0 16) by (reflexivity || zdiv).
  reflexivity.
Qed.

Lemma char_bytes_4 ch :
  0x10000 <= ch < 0x110000 ->
  char_bytes ch = [0xF0 + ch / 262144; 0x80 + (ch / 4096) mod 64;
                   0x80 + (ch / 64) mod 64; 0x80 + ch mod 64].
Proof.
  intros H. pick_length.
  change (at_index firstByteMark 4) with 0xF0.
  change (2 ^ (6 + 6 + 6)) with 262144.
  change (2 ^ (6 + 6)) with 4096. change (2 ^ 6) with 64.
  rewrite (lead_byte 0xF0 8) by (reflexivity || zdiv).
  reflexivity.
Qed.

(** The decoder's pass over a character of each length, on explicit bytes. *)
Lemma decode_char_len1 b0 rest :
  at_index trailingBytesForUTF8 b0 = 0 ->
  decode_char (b0 :: rest) 0 = (0%nat, u32 (0 + u32 (b0 - 0))).
Proof.
  intros H. unfold decode_char.
  change (at_index (b0 :: rest) (Z.of_nat 0)) with b0. rewrite H. reflexivity.
Qed.

Lemma decode_char_len2 b0 b1 rest :
  at_index trailingBytesForUTF8 b0 = 1 ->
  decode_char (b0 :: b1 :: rest) 0 =
  (1%nat, u32 (u32 (Z.shiftl (u32 (0 + b0)) 6) + u32 (b1 - 0x3080))).
Proof.
  intros H. unfold decode_char.
  change (at_index (b0 :: b1 :: rest) (Z.of_nat 0)) with b0. rewrite H.
  reflexivity.
Qed.

Lemma decode_char_len3 b0 b1 b2 rest :
  at_index trailingBytesForUTF8 b0 = 2 ->
  decode_char (b0 :: b1 :: b2 :: rest) 0 =
  (2%nat, u32 (u32 (Z.shiftl (u32 (u32 (Z.shiftl (u32 (0 + b0)) 6) + b1)) 6)
               + u32 (b2 - 0xE2080))).
Proof.
  intros H. unfold decode_char.
  change (at_index (b0 :: b1 :: b2 :: rest) (Z.of_nat 0)) with b0. rewrite H.
  reflexivity.
Qed.

Lemma decode_char_len4 b0 b1 b2 b3 rest :
  at_index trailingBytesForUTF8 b0 = 3 ->
  decode_char (b0 :: b1 :: b2 :: b3 :: rest) 0 =
  (3%nat,
   u32 (u32 (Z.shiftl
               (u32 (u32 (Z.shiftl (u32 (u32 (Z.shiftl (u32 (0 + b0)) 6) + b1)) 6)
                     + b2)) 6)
        + u32 (b3 - 0x3C82080))).
Proof.
  intros H. unfold decode_char.
  change (at_index (b0 :: b1 :: b2 :: b3 :: rest) (Z.of_nat 0)) with b0.
  rewrite H. reflexivity.
Qed.

Lemma truncated_cons b0 rest :
  truncated (b0 :: rest) 0 =
  (Z.of_nat (S (length rest)) <=? at_index trailingBytesForUTF8 b0).
Proof. reflexivity. Qed.

Lemma u32_add_r a b : u32 (a + u32 b) = u32 (a + b).
Proof. unfold u32. apply Z.add_mod_idemp_r. lia. Qed.

Lemma trailing_of b k :
  is_byte b -> trailing_by_range b = k -> at_index trailingBytesForUTF8 b = k.
Proof. intros Hb <-. apply trailing_table, Hb. Qed.

Ltac range_case :=
  unfold trailing_by_range;
  repeat match goal with
         | |- context [?a <? ?b] =>
             destruct (Z.ltb_spec a b); [try zdiv | try zdiv]
         end; try reflexivity.

Lemma decode_one ch rest :
  legal ch ->
  truncated (char_bytes ch ++ rest) 0 = false /\
  decode_char (char_bytes ch ++ rest) 0 =
    ((length (char_bytes ch) - 1)%nat, ch).
Proof.
  intros [Hr Hs].
  assert (Hc : 0 <= ch < 0x80 \/ 0x80 <= ch < 0x800 \/
               0x800 <= ch < 0x10000 \/ 0x10000 <= ch < 0x110000) by lia.
  destruct Hc as [H | [H | [H | H]]].
  - rewrite (char_bytes_1 ch H). cbn [app length].
    assert (T : at_index trailingBytesForUTF8 ch = 0)
      by (apply trailing_of; [unfold is_byte; lia | range_case]).
    rewrite truncated_cons, decode_char_len1, T by exact T. split.
    + apply Z.leb_gt. lia.
    + f_equal. rewrite u32_add_r. unfold u32. change (2 ^ 32) with 4294967296. zdiv.
  - rewrite (char_bytes_2 ch H). cbn [app length].
    assert (T : at_index trailingBytesForUTF8 (0xC0 + ch / 64) = 1)
      by (apply trailing_of; [unfold is_byte; zdiv | range_case]).
    rewrite truncated_cons, decode_char_len2, T by exact T. split.
    + apply Z.leb_gt. cbn [length]. lia.
    + f_equal. rewrite u32_add_r, Z.shiftl_mul_pow2 by lia.
      change (2 ^ 6) with 64.
      unfold u32. change (2 ^ 32) with 4294967296. zdiv.
  - rewrite (char_bytes_3 ch H). cbn [app length].
    assert (T : at_index trailingBytesForUTF8 (0xE0 + ch / 4096) = 2)
      by (apply trailing_of; [unfold is_byte; zdiv | range_case]).
    rewrite truncated_cons, decode_char_len3, T by exact T. split.
    + apply Z.leb_gt. cbn [length]. lia.
    + f_equal. rewrite u32_add_r, !Z.shiftl_mul_pow2 by lia.
      change (2 ^ 6) with 64.
      unfold u32. change (2 ^ 32) with 4294967296. zdiv.
  - rewrite (char_bytes_4 ch H). cbn [app length].
    assert (T : at_index trailingBytesForUTF8 (0xF0 + ch / 262144) = 3)
      by (apply trailing_of; [unfold is_byte; zdiv | range_case]).
    rewrite truncated_cons, decode_char_len4, T by exact T. split.
    + apply Z.leb_gt. cbn [length]. lia.
    + f_equal. rewrite u32_add_r, !Z.shiftl_mul_pow2 by lia.
      change (2 ^ 6) with 64.
      unfold u32. change (2 ^ 32) with 4294967296. zdiv.
Qed.

Lemma char_bytes_nonempty ch : legal ch -> (1 <= length (char_bytes ch))%nat.
Proof.
  intros [Hr _]. rewrite char_bytes_length by (unfold UniMaxLegalUTF32; lia).
  destruct (lookupBytesToWrite_cases ch) as [(_ & _ & Hn) | [Hgt _]];
    [lia | unfold UniMaxLegalUTF32 in Hgt; lia].
Qed.

(** Decoding the encoding of [s] from the cursor at which it starts. *)
Lemma decode_loop_encoded s : Forall legal s -> forall pre ret,
  decode_loop (pre ++ flat_map char_bytes s) (length pre) ret = (ret ++ s, None).
Proof.
  induction 1 as [|ch s Hch Hs IH]; intros pre ret; rewrite decode_loop_eq.
  - cbn [flat_map]. rewrite app_nil_r.
    destruct (decide _) as [Hlt | _]; [lia|]. rewrite app_nil_r. reflexivity.
  - cbn [flat_map].
    pose proof (char_bytes_nonempty ch Hch) as Hne.
    destruct (decide _) as [_ | Hge].
    2:{ exfalso. apply Hge. rewrite !length_app. lia. }
    destruct (decode_one ch (flat_map char_bytes s) Hch) as [Ht Hd].
    pose proof (truncated_app pre (char_bytes ch ++ flat_map char_bytes s) 0) as Ht'.
    pose proof (decode_char_app pre (char_bytes ch ++ flat_map char_bytes s) 0) as Hd'.
    rewrite Nat.add_0_r in Ht', Hd'.
    rewrite Ht', Hd', Ht, Hd. cbn [fst snd].
    rewrite (legal_in_range ch Hch).
    rewrite app_assoc.
    replace (S (length pre + (length (char_bytes ch) - 1)))
      with (length (pre ++ char_bytes ch)) by (rewrite length_app; lia).
    rewrite IH, <- app_assoc. reflexivity.
Qed.


(** ** The decoder's scan *)

Lemma decode_char_cursor src i :
  fst (decode_char src i) = (i + Z.to_nat (extra_at src i))%nat.
Proof.
  unfold decode_char, extra_at.
  pose proof (read_extra_cursor
    (Z.to_nat (at_index trailingBytesForUTF8 (at_index src (Z.of_nat i)))) src i 0) as F.
  destruct (read_extra _ src i 0) as [i' ch]. exact F.
Qed.

(** Every failure of the decoder loop is [ErrInvalidSource] with no result. *)
Lemma decode_loop_failure src i ret out e :
  decode_loop src i ret = (out, Some e) -> out = [] /\ e = ErrInvalidSource.
Proof.
  remember (length src - i)%nat as n eqn:Hn. revert i ret Hn.
  induction n as [n IH] using lt_wf_ind. intros i ret Hn.
  rewrite decode_loop_eq.
  destruct (decide _) as [Hlt | Hge]; [|intros [= _ E]; discriminate E].
  destruct (truncated src i); [intros [= <- <-]; auto|].
  destruct (out_of_range _); [intros [= <- <-]; auto|].
  apply (IH (length src - S (fst (decode_char src i)))%nat); [|reflexivity].
  rewrite decode_char_cursor. lia.
Qed.

Lemma ConvertUTF8toUTF32_failure src out e :
  ConvertUTF8toUTF32 src = (out, Some e) -> out = [] /\ e = ErrInvalidSource.
Proof. apply decode_loop_failure. Qed.

(** The loop either has failed before a character start or arrives there. *)
Lemma decode_reaches src i :
  char_start src i ->
  ConvertUTF8toUTF32 src = ([], Some ErrInvalidSource) \/
  exists ret, ConvertUTF8toUTF32 src = decode_loop src i ret.
Proof.
  induction 1 as [|i Hi IH Hlt Ht].
  - right. exists []. reflexivity.
  - destruct IH as [IH | [ret IH]]; [left; exact IH|].
    rewrite IH, decode_loop_eq.
    destruct (decide _) as [_ | Hge]; [|contradiction].
    rewrite Ht.
    destruct (out_of_range _); [left; reflexivity|].
    right. rewrite decode_char_cursor. eexists. reflexivity.
Qed.

(** A truncated character at a character start makes the decoder fail. *)
Lemma decode_truncated src i :
  char_start src i -> (i < length src)%nat -> truncated src i = true ->
  ConvertUTF8toUTF32 src = ([], Some ErrInvalidSource).
Proof.
  intros Hi Hlt Ht.
  destruct (decode_reaches src i Hi) as [E | [ret E]]; [exact E|].
  rewrite E, decode_loop_eq.
  destruct (decide _) as [_ | Hge]; [|contradiction].
  rewrite Ht. reflexivity.
Qed.

(** An accumulated value out of range at a character start makes it fail. *)
Lemma decode_out_of_range src i :
  char_start src i -> (i < length src)%nat -> truncated src i = false ->
  out_of_range (snd (decode_char src i)) = true ->
  ConvertUTF8toUTF32 src = ([], Some ErrInvalidSource).
Proof.
  intros Hi Hlt Ht Ho.
  destruct (decode_reaches src i Hi) as [E | [ret E]]; [exact E|].
  rewrite E, decode_loop_eq.
  destruct (decide _) as [_ | Hge]; [|contradiction].
  rewrite Ht, Ho. reflexivity.
Qed.

(** ** Lengths *)

Lemma char_bytes_length_by_range ch :
  ch <= UniMaxLegalUTF32 -> length (char_bytes ch) = byte_length_by_range ch.
Proof.
  intros H. rewrite char_bytes_length by exact H.
  unfold lookupBytesToWrite, byte_length_by_range.
  repeat match goal with
         | |- context [?a <? ?b] => destruct (Z.ltb_spec a b)
         | |- context [?a <=? ?b] => destruct (Z.leb_spec a b)
         end; try reflexivity; lia.
Qed.

Lemma encoded_length src :
  forallb encodable src = true ->
  length (flat_map char_bytes src) = sum_nat (map byte_length_by_range src).
Proof.
  induction src as [|ch src IH]; intros H; [reflexivity|].
  cbn [forallb] in H. apply andb_prop in H as [Hch Hs].
  cbn [flat_map map sum_nat foldr]. rewrite length_app. fold (sum_nat (map byte_length_by_range src)).
  rewrite (IH Hs). f_equal.
  apply char_bytes_length_by_range.
  unfold encodable in Hch. apply andb_prop in Hch as [_ Hle].
  apply Z.leb_le, Hle.
Qed.

Lemma byte_length_le_4 ch : (byte_length_by_range ch <= 4)%nat.
Proof.
  unfold byte_length_by_range.
  repeat match goal with
         | |- context [?a <? ?b] => destruct (Z.ltb_spec a b)
         end; lia.
Qed.

Lemma sum_le_4 src : (sum_nat (map byte_length_by_range src) <= 4 * length src)%nat.
Proof.
  induction src as [|ch src IH]; cbn [map sum_nat foldr length]; [lia|].
  fold (sum_nat (map byte_length_by_range src)).
  pose proof (byte_length_le_4 ch). lia.
Qed.

(** A successful encoding is the concatenation of the code points' bytes. *)
Lemma ConvertUTF32toUTF8_success src out :
  ConvertUTF32toUTF8 src = (out, None) ->
  forallb encodable src = true /\ out = flat_map char_bytes src.
Proof.
  rewrite ConvertUTF32toUTF8_spec.
  destruct (forallb encodable src); [|discriminate].
  intros [= <-]. split; reflexivity.
Qed.

Lemma ConvertUTF32toUTF8_failure src out e :
  ConvertUTF32toUTF8 src = (out, Some e) -> out = [] /\ e = ErrInvalidSource.
Proof.
  rewrite ConvertUTF32toUTF8_spec.
  destruct (forallb encodable src); [discriminate|].
  intros [= <- <-]. split; reflexivity.
Qed.

Lemma not_encodable_fails src :
  Exists (fun ch => encodable ch = false) src ->
  ConvertUTF32toUTF8 src = ([], Some ErrInvalidSource).
Proof.
  intros H. rewrite ConvertUTF32toUTF8_spec.
  destruct (forallb encodable src) eqn:E; [|reflexivity].
  exfalso. rewrite forallb_forall in E.
  apply List.Exists_exists in H as (ch & Hin & Hch).
  rewrite (E ch Hin) in Hch. discriminate.
Qed.

(** ** Rejected values *)

Lemma surrogate_not_encodable ch :
  0xD800 <= ch <= 0xDFFF -> encodable ch = false.
Proof.
  intros H. unfold encodable, surrogate, UniSurHighStart, UniSurLowEnd.
  destruct (Z.leb_spec 0xd800 ch); [|lia].
  destruct (Z.leb_spec ch 0xdfff); [|lia]. reflexivity.
Qed.

Lemma too_large_not_encodable ch : 0x110000 <= ch -> encodable ch = false.
Proof.
  intros H. unfold encodable, UniMaxLegalUTF32.
  destruct (Z.leb_spec ch 0x0010ffff); [lia|]. apply andb_false_r.
Qed.

Lemma surrogate_out_of_range ch :
  0xD800 <= ch <= 0xDFFF -> out_of_range ch = true.
Proof.
  intros H. unfold out_of_range, UniSurHighStart, UniSurLowEnd.
  destruct (Z.leb_spec 0xd800 ch); [|lia].
  destruct (Z.leb_spec ch 0xdfff); [|lia]. apply orb_true_r.
Qed.

Lemma truncated_iff src i :
  truncated src i = true <->
  Z.of_nat (length src) - Z.of_nat i - 1 < extra_at src i.
Proof.
  unfold truncated, extra_at. rewrite Z.leb_le. lia.
Qed.

Lemma ascii_encodable src :
  Forall (fun ch => 0 <= ch < 0x80) src -> forallb encodable src = true.
Proof.
  intros H. apply forallb_forall. intros ch Hin.
  rewrite List.Forall_forall in H. specialize (H ch Hin).
  apply legal_encodable. unfold legal. lia.
Qed.

Lemma ascii_length src :
  Forall (fun ch => 0 <= ch < 0x80) src ->
  sum_nat (map byte_length_by_range src) = length src.
Proof.
  induction 1 as [|ch src Hch Hs IH]; [reflexivity|].
  cbn [map sum_nat foldr length]. fold (sum_nat (map byte_length_by_range src)).
  rewrite IH. unfold byte_length_by_range.
  destruct (Z.ltb_spec ch 0x80); [reflexivity | lia].
Qed.

(** ** Properties of the conversions *)

(** C1.  Round trip: a sequence of legal code points (each below 0x110000
    and outside the surrogate range) is encoded without error, and decoding
    the bytes obtained succeeds and returns the sequence itself. *)
Theorem round_trip (s : list UTF32) :
  Forall legal s ->
  exists b, ConvertUTF32toUTF8 s = (b, None) /\
            ConvertUTF8toUTF32 b = (s, None).
Proof.
  intros Hs. exists (flat_map char_bytes s). split.
  - rewrite ConvertUTF32toUTF8_spec.
    assert (E : forallb encodable s = true).
    { apply forallb_forall. intros ch Hin. apply legal_encodable.
      rewrite List.Forall_forall in Hs. apply Hs, Hin. }
    rewrite E. reflexivity.
  - unfold ConvertUTF8toUTF32.
    apply (decode_loop_encoded s Hs [] []).
Qed.

Lemma round_trip_witness :
  Forall legal [0x68; 0xE9; 0x91D; 0xFFFD; 0x12345; 0x10FFFF] /\
  exists b, ConvertUTF32toUTF8 [0x68; 0xE9; 0x91D; 0xFFFD; 0x12345; 0x10FFFF]
              = (b, None) /\
            ConvertUTF8toUTF32 b
              = ([0x68; 0xE9; 0x91D; 0xFFFD; 0x12345; 0x10FFFF], None).
Proof.
  assert (H : Forall legal [0x68; 0xE9; 0x91D; 0xFFFD; 0x12345; 0x10FFFF])
    by (repeat constructor; lia).
  split; [exact H | apply (round_trip _ H)].
Defined.

(** C2.  Surrogate rejection: the encoder fails with [ErrInvalidSource] on
    every input that contains a code point in [0xD800, 0xDFFF]; the decoder
    fails with [ErrInvalidSource] on every input in which the value
    accumulated for the character at some character start lies in that
    range. *)
Theorem surrogate_rejection :
  (forall src : list UTF32,
      Exists (fun ch => 0xD800 <= ch <= 0xDFFF) src ->
      ConvertUTF32toUTF8 src = ([], Some ErrInvalidSource)) /\
  (forall (src : list byte) (i : nat),
      char_start src i -> (i < length src)%nat -> truncated src i = false ->
      0xD800 <= snd (decode_char src i) <= 0xDFFF ->
      ConvertUTF8toUTF32 src = ([], Some ErrInvalidSource)).
Proof.
  split.
  - intros src H. apply not_encodable_fails.
    apply List.Exists_exists in H as (ch & Hin & Hch).
    apply List.Exists_exists. exists ch. split; [exact Hin|].
    apply surrogate_not_encodable, Hch.
  - intros src i Hi Hlt Ht Hs.
    apply (decode_out_of_range src i Hi Hlt Ht).
    apply surrogate_out_of_range, Hs.
Qed.

Lemma surrogate_rejection_witness :
  ConvertUTF32toUTF8 [0x41; 0xDC00; 0x42] = ([], Some ErrInvalidSource) /\
  ConvertUTF8toUTF32 [0x41; 0xED; 0xA0; 0x80] = ([], Some ErrInvalidSource).
Proof.
  split.
  - apply (proj1 surrogate_rejection).
    apply Exists_cons_tl, Exists_cons_hd. lia.
  - apply (proj2 surrogate_rejection _ 1%nat).
    + apply (char_start_next [0x41; 0xED; 0xA0; 0x80] 0%nat);
        [apply char_start_first | simpl; lia | reflexivity].
    + simpl. lia.
    + reflexivity.
    + vm_compute. split; discriminate.
Defined.

(** C3.  Maximum value: [0x10FFFF] alone is encoded (to F4 8F BF BF) and
    these bytes decode to [0x10FFFF]; any input that contains a code point of
    0x110000 or more makes the encoder fail with [ErrInvalidSource]. *)
Theorem max_value_boundary :
  ConvertUTF32toUTF8 [0x10FFFF] = ([0xF4; 0x8F; 0xBF; 0xBF], None) /\
  ConvertUTF8toUTF32 [0xF4; 0x8F; 0xBF; 0xBF] = ([0x10FFFF], None) /\
  (forall src : list UTF32,
      Exists (fun ch => 0x110000 <= ch) src ->
      ConvertUTF32toUTF8 src = ([], Some ErrInvalidSource)).
Proof.
  split; [vm_compute; reflexivity|]. split; [vm_compute; reflexivity|].
  intros src H. apply not_encodable_fails.
  apply List.Exists_exists in H as (ch & Hin & Hch).
  apply List.Exists_exists. exists ch. split; [exact Hin|].
  apply too_large_not_encodable, Hch.
Qed.

Lemma max_value_boundary_witness :
  ConvertUTF32toUTF8 [0x41; 0x110000] = ([], Some ErrInvalidSource).
Proof.
  apply (proj2 (proj2 max_value_boundary)).
  apply Exists_cons_tl, Exists_cons_hd. lia.
Defined.

(** C4.  Length: when the encoder succeeds, the number of bytes it returns
    is the sum over the code points of their byte length by range (1 below
    0x80, 2 below 0x800, 3 below 0x10000, 4 up to 0x10FFFF).  In particular
    11 ASCII code points give 11 bytes, U+00E9 gives 2, U+091D gives 3 and a
    supplementary-plane code point gives 4. *)
Theorem length_correctness :
  (forall (src : list UTF32) (out : list byte),
      ConvertUTF32toUTF8 src = (out, None) ->
      length out = sum_nat (map byte_length_by_range src)) /\
  (forall src : list UTF32,
      Forall (fun ch => 0 <= ch < 0x80) src -> length src = 11%nat ->
      exists out, ConvertUTF32toUTF8 src = (out, None) /\ length out = 11%nat) /\
  (exists out, ConvertUTF32toUTF8 [0xE9] = (out, None) /\ length out = 2%nat) /\
  (exists out, ConvertUTF32toUTF8 [0x91D] = (out, None) /\ length out = 3%nat) /\
  (forall ch : UTF32,
      0x10000 <= ch <= 0x10FFFF ->
      exists out, ConvertUTF32toUTF8 [ch] = (out, None) /\ length out = 4%nat).
Proof.
  split; [|split; [|split; [|split]]].
  - intros src out H.
    apply ConvertUTF32toUTF8_success in H as [He ->].
    apply encoded_length, He.
  - intros src Ha Hl. exists (flat_map char_bytes src).
    rewrite ConvertUTF32toUTF8_spec, (ascii_encodable src Ha).
    split; [reflexivity|].
    rewrite encoded_length by (apply ascii_encodable, Ha).
    rewrite ascii_length by exact Ha. exact Hl.
  - eexists. split; vm_compute; reflexivity.
  - eexists. split; vm_compute; reflexivity.
  - intros ch H. exists (char_bytes ch).
    assert (L : legal ch) by (unfold legal; lia).
    rewrite ConvertUTF32toUTF8_spec. cbn [forallb flat_map].
    rewrite (legal_encodable ch L), app_nil_r. split; [reflexivity|].
    rewrite char_bytes_4 by lia. reflexivity.
Qed.

Lemma length_correctness_witness :
  length [0x68; 0xC3; 0xA9; 0xE0; 0xA4; 0x9D; 0xF0; 0x92; 0x8D; 0x85]
  = sum_nat (map byte_length_by_range [0x68; 0xE9; 0x91D; 0x12345]) /\
  (exists out,
      ConvertUTF32toUTF8
        [0x68; 0x65; 0x6C; 0x6C; 0x6F; 0x20; 0x77; 0x6F; 0x72; 0x6C; 0x64]
      = (out, None) /\ length out = 11%nat) /\
  (exists out, ConvertUTF32toUTF8 [0x12345] = (out, None) /\ length out = 4%nat).
Proof.
  split; [|split].
  - apply (proj1 length_correctness [0x68; 0xE9; 0x91D; 0x12345]).
    vm_compute. reflexivity.
  - apply (proj1 (proj2 length_correctness)); [|reflexivity].
    repeat constructor; lia.
  - apply (proj2 (proj2 (proj2 (proj2 length_correctness)))). lia.
Defined.

(** C5.  Truncation: if the lead byte at a character start claims more
    trailing bytes than remain after it, the decoder fails with
    [ErrInvalidSource].  In particular a buffer made of a lead byte of a
    three-byte sequence (E0..EF, two trailing bytes claimed) alone, or
    followed by one more byte, is rejected. *)
Theorem truncation :
  (forall (src : list byte) (i : nat),
      char_start src i -> (i < length src)%nat ->
      Z.of_nat (length src) - Z.of_nat i - 1 < extra_at src i ->
      ConvertUTF8toUTF32 src = ([], Some ErrInvalidSource)) /\
  (forall b c : byte,
      0xE0 <= b <= 0xEF ->
      extra_at [b] 0 = 2 /\
      ConvertUTF8toUTF32 [b] = ([], Some ErrInvalidSource) /\
      ConvertUTF8toUTF32 [b; c] = ([], Some ErrInvalidSource)).
Proof.
  assert (G : forall (src : list byte) (i : nat),
             char_start src i -> (i < length src)%nat ->
             Z.of_nat (length src) - Z.of_nat i - 1 < extra_at src i ->
             ConvertUTF8toUTF32 src = ([], Some ErrInvalidSource)).
  { intros src i Hi Hlt Hk. apply (decode_truncated src i Hi Hlt).
    apply truncated_iff, Hk. }
  split; [exact G|].
  intros b c Hb.
  assert (T : at_index trailingBytesForUTF8 b = 2)
    by (apply trailing_of; [unfold is_byte; lia | range_case]).
  split; [exact T|].
  split; apply (G _ 0%nat); try apply char_start_first; cbn [length]; try lia;
    unfold extra_at; change (at_index (b :: _) (Z.of_nat 0)) with b;
    rewrite T; lia.
Qed.

Lemma truncation_witness :
  ConvertUTF8toUTF32 [0x41; 0xE0; 0xA4] = ([], Some ErrInvalidSource) /\
  ConvertUTF8toUTF32 [0xE0] = ([], Some ErrInvalidSource).
Proof.
  split.
  - apply (proj1 truncation [0x41; 0xE0; 0xA4] 1%nat).
    + apply (char_start_next [0x41; 0xE0; 0xA4] 0%nat);
        [apply char_start_first | simpl; lia | reflexivity].
    + simpl. lia.
    + vm_compute. reflexivity.
  - apply (proj2 truncation 0xE0 0). lia.
Defined.

(** C6.  Failure is atomic: whenever the encoder or the decoder returns an
    error, the value returned with it is empty, whatever was converted before
    the failure. *)
Theorem failure_is_atomic :
  (forall (src : list UTF32) (out : list byte) (e : error),
      ConvertUTF32toUTF8 src = (out, Some e) -> out = []) /\
  (forall (src : list byte) (out : list UTF32) (e : error),
      ConvertUTF8toUTF32 src = (out, Some e) -> out = []).
Proof.
  split; intros src out e H.
  - apply (ConvertUTF32toUTF8_failure src out e H).
  - apply (ConvertUTF8toUTF32_failure src out e H).
Qed.

Lemma failure_is_atomic_witness :
  ConvertUTF32toUTF8 [0x41; 0x42; 0xD800] = ([], Some ErrInvalidSource) /\
  ConvertUTF8toUTF32 [0x41; 0x42; 0xE0] = ([], Some ErrInvalidSource) /\
  ([] : list byte) = [] /\ ([] : list UTF32) = [].
Proof.
  split; [vm_compute; reflexivity|]. split; [vm_compute; reflexivity|]. split.
  - apply (proj1 failure_is_atomic [0x41; 0x42; 0xD800] [] ErrInvalidSource).
    vm_compute. reflexivity.
  - apply (proj2 failure_is_atomic [0x41; 0x42; 0xE0] [] ErrInvalidSource).
    vm_compute. reflexivity.
Defined.

(** C7.  Continuation bytes are not validated: there are a lead byte of a
    two-byte sequence and a following byte without the 10xxxxxx pattern (C2
    then the ASCII byte 41) that the decoder accepts, returning a code point
    whose encoding is not those two bytes. *)
Theorem continuation_not_validated :
  exists (b0 b1 : byte) (cp : UTF32),
    b0 = 0xC2 /\ b1 = 0x41 /\ cp = 0x41 /\
    is_byte b0 /\ at_index trailingBytesForUTF8 b0 = 1 /\
    is_byte b1 /\ Z.land b1 0xC0 <> 0x80 /\
    ConvertUTF8toUTF32 [b0; b1] = ([cp], None) /\
    ConvertUTF32toUTF8 [cp] <> ([b0; b1], None).
Proof.
  exists 0xC2, 0x41, 0x41.
  do 3 (split; [reflexivity|]).
  split; [unfold is_byte; lia|].
  split; [reflexivity|]. split; [unfold is_byte; lia|].
  split; [vm_compute; discriminate|].
  split; [vm_compute; reflexivity|]. vm_compute. discriminate.
Qed.

(** C8.  At most four bytes per code point: a byte count returned by
    [lookupBytesToWrite] without error is between 1 and 4 and is the number of
    bytes written for the code point, and a successful encoding is at most 4
    times as long as its input. *)
Theorem at_most_four_bytes :
  (forall (ch : UTF32) (n : Z),
      lookupBytesToWrite ch = (n, None) ->
      1 <= n <= 4 /\ length (char_bytes ch) = Z.to_nat n) /\
  (forall (src : list UTF32) (out : list byte),
      ConvertUTF32toUTF8 src = (out, None) ->
      (length out <= 4 * length src)%nat).
Proof.
  split.
  - intros ch n H.
    destruct (lookupBytesToWrite_cases ch) as [(Hle & _ & Hn) | [_ E]].
    + rewrite char_bytes_length by exact Hle. rewrite H in *. cbn [fst] in *.
      split; [exact Hn | reflexivity].
    + rewrite E in H. discriminate.
  - intros src out H.
    apply ConvertUTF32toUTF8_success in H as [He ->].
    rewrite encoded_length by exact He. apply sum_le_4.
Qed.

Lemma at_most_four_bytes_witness :
  (1 <= 4 <= 4 /\ length (char_bytes 0x10FFFF) = Z.to_nat 4) /\
  (length [0xF4; 0x8F; 0xBF; 0xBF; 0x41]%Z <= 4 * length [0x10FFFF; 0x41]%Z)%nat.
Proof.
  split.
  - apply (proj1 at_most_four_bytes 0x10FFFF 4). reflexivity.
  - apply (proj2 at_most_four_bytes [0x10FFFF; 0x41]).
    vm_compute. reflexivity.
Defined.

(** C9.  Empty input: the encoder maps the empty sequence to the empty
    string and the decoder maps the empty string to the empty sequence, both
    without error. *)
Theorem empty_input :
  ConvertUTF32toUTF8 [] = ([], None) /\ ConvertUTF8toUTF32 [] = ([], None).
Proof. split; reflexivity. Qed.

(** C10.  Decoding then encoding is not the identity: the overlong
    sequence C0 80 decodes without error to the code point 0, which is
    encoded as the single byte 00. *)
Theorem decode_encode_not_identity :
  exists (b : list byte) (s : list UTF32) (b' : list byte),
    Forall is_byte b /\
    ConvertUTF8toUTF32 b = (s, None) /\
    ConvertUTF32toUTF8 s = (b', None) /\ b' <> b /\
    b = [0xC0; 0x80] /\ s = [0] /\ b' = [0x00].
Proof.
  exists [0xC0; 0x80], [0], [0x00].
  split; [repeat constructor; unfold is_byte; lia|].
  split; [vm_compute; reflexivity|]. split; [vm_compute; reflexivity|].
  split; [discriminate|]. repeat split.
Qed.

(** * Further properties *)

(** ** Induction over the passes of the decoder loop *)

Section DecodeLoopInd.
Variable src : list byte.
Variable P : nat -> list UTF32 -> list UTF32 * option error -> Prop.

Hypothesis at_end : forall i ret,
  ~ (i < length src)%nat -> P i ret (ret, None).
Hypothesis at_truncated : forall i ret,
  (i < length src)%nat -> truncated src i = true ->
  P i ret ([], Some ErrInvalidSource).
Hypothesis at_out_of_range : forall i ret,
  (i < length src)%nat -> truncated src i = false ->
  out_of_range (snd (decode_char src i)) = true ->
  P i ret ([], Some ErrInvalidSource).
Hypothesis at_char : forall i ret,
  (i < length src)%nat -> truncated src i = false ->
  out_of_range (snd (decode_char src i)) = false ->
  P (S (fst (decode_char src i))) (ret ++ [snd (decode_char src i)])
    (decode_loop src (S (fst (decode_char src i)))
       (ret ++ [snd (decode_char src i)])) ->
  P i ret (decode_loop src (S (fst (decode_char src i)))
             (ret ++ [snd (decode_char src i)])).

Lemma decode_loop_passes i ret : P i ret (decode_loop src i ret).
Proof.
  remember (length src - i)%nat as n eqn:Hn. revert i ret Hn.
  induction n as [n IH] using lt_wf_ind. intros i ret Hn.
  rewrite decode_loop_eq.
  destruct (decide _) as [Hlt | Hge]; [|apply at_end, Hge].
  destruct (truncated src i) eqn:Ht; [apply at_truncated; assumption|].
  destruct (out_of_range _) eqn:Ho; [apply at_out_of_range; assumption|].
  apply at_char; try assumption.
  apply (IH (length src - S (fst (decode_char src i)))%nat); [|reflexivity].
  rewrite decode_char_cursor. lia.
Qed.
End DecodeLoopInd.

Lemma decode_char_nonneg src i : 0 <= snd (decode_char src i) < 2 ^ 32.
Proof.
  unfold decode_char. destruct (read_extra _ src i 0) as [i' ch]. cbn [snd].
  unfold u32. apply Z.mod_pos_bound. lia.
Qed.

Lemma in_range_legal ch : 0 <= ch -> out_of_range ch = false -> legal ch.
Proof.
  unfold out_of_range, legal, UniMaxLegalUTF32, UniSurHighStart, UniSurLowEnd.
  intros H0 H. apply orb_false_elim in H as [H1 H2].
  apply Z.ltb_ge in H1. apply andb_false_iff in H2.
  split; [lia|]. destruct H2 as [H2 | H2]; [apply Z.leb_gt in H2 | apply Z.leb_gt in H2]; lia.
Qed.

Lemma decode_loop_legal src i ret s :
  Forall legal ret -> decode_loop src i ret = (s, None) -> Forall legal s.
Proof.
  revert s. pattern i, ret, (decode_loop src i ret).
  apply decode_loop_passes; clear i ret.
  - intros i ret _ s Hr [= <-]. exact Hr.
  - intros i ret _ _ s _ [=].
  - intros i ret _ _ _ s _ [=].
  - intros i ret _ _ Ho IH s Hr E. apply IH; [|exact E].
    apply Forall_app. split; [exact Hr|]. apply Forall_singleton.
    apply in_range_legal; [apply decode_char_nonneg | exact Ho].
Qed.

Lemma legal_all_encodable s : Forall legal s -> forallb encodable s = true.
Proof.
  intros Hs. apply forallb_forall. intros ch Hin. apply legal_encodable.
  rewrite List.Forall_forall in Hs. apply Hs, Hin.
Qed.

(** Both directions on legal code points, with the bytes in closed form. *)
Lemma convert_legal s :
  Forall legal s ->
  ConvertUTF32toUTF8 s = (flat_map char_bytes s, None) /\
  ConvertUTF8toUTF32 (flat_map char_bytes s) = (s, None).
Proof.
  intros Hs. split.
  - rewrite ConvertUTF32toUTF8_spec, (legal_all_encodable s Hs). reflexivity.
  - apply (decode_loop_encoded s Hs [] []).
Qed.

(** X1.  Every code point the decoder returns is legal: below 0x110000 and
    outside the surrogate range. *)
Theorem decoded_code_points_legal (src : list byte) (s : list UTF32) :
  ConvertUTF8toUTF32 src = (s, None) -> Forall legal s.
Proof. apply decode_loop_legal. constructor. Qed.

Lemma decoded_code_points_legal_witness :
  Forall legal [0x41; 0x20AC; 0x10FFFF].
Proof.
  apply (decoded_code_points_legal [0x41; 0xE2; 0x82; 0xAC; 0xF4; 0x8F; 0xBF; 0xBF]).
  vm_compute. reflexivity.
Defined.

(** X2.  What the decoder returns can be encoded again, and the bytes so
    obtained decode to the same code points. *)
Theorem decoded_is_reencodable (src : list byte) (s : list UTF32) :
  ConvertUTF8toUTF32 src = (s, None) ->
  exists b, ConvertUTF32toUTF8 s = (b, None) /\
            ConvertUTF8toUTF32 b = (s, None).
Proof.
  intros H. exists (flat_map char_bytes s). apply convert_legal.
  apply (decode_loop_legal src 0 [] s); [constructor | exact H].
Qed.

Lemma decoded_is_reencodable_witness :
  exists b, ConvertUTF32toUTF8 [0; 0x80] = (b, None) /\
            ConvertUTF8toUTF32 b = ([0; 0x80], None).
Proof.
  apply (decoded_is_reencodable [0xC0; 0x80; 0x80]).
  vm_compute. reflexivity.
Defined.

(** ** The encoder accepts exactly the legal code points *)

Lemma encodable_legal ch : 0 <= ch -> encodable ch = true -> legal ch.
Proof.
  unfold encodable, surrogate, legal, UniMaxLegalUTF32, UniSurHighStart,
    UniSurLowEnd.
  intros H0 H. apply andb_prop in H as [H1 H2].
  apply Z.leb_le in H2. apply negb_true_iff, andb_false_iff in H1.
  split; [lia|]. destruct H1 as [H1 | H1]; apply Z.leb_gt in H1; lia.
Qed.

(** X3.  On [uint32] values the encoder succeeds exactly when every code
    point is legal, and otherwise returns the empty string with
    [ErrInvalidSource]. *)
Theorem encoder_accepts_iff_legal (src : list UTF32) :
  Forall (fun ch => 0 <= ch < 2 ^ 32) src ->
  (Forall legal src <-> exists b, ConvertUTF32toUTF8 src = (b, None)) /\
  (~ Forall legal src <-> ConvertUTF32toUTF8 src = ([], Some ErrInvalidSource)).
Proof.
  intros Hu.
  assert (A : Forall legal src <-> forallb encodable src = true).
  { split; [apply legal_all_encodable|].
    intros E. rewrite forallb_forall in E.
    apply List.Forall_forall. intros ch Hin. apply encodable_legal.
    - rewrite List.Forall_forall in Hu. apply (Hu ch Hin).
    - apply E, Hin. }
  rewrite ConvertUTF32toUTF8_spec.
  destruct (forallb encodable src) eqn:E; split; split.
  - intros _. eexists. reflexivity.
  - intros _. apply A. reflexivity.
  - intros Hn. exfalso. apply Hn, A. reflexivity.
  - intros [=].
  - intros Hl. apply A in Hl. discriminate Hl.
  - intros [b [=]].
  - intros _. reflexivity.
  - intros _ Hl. apply A in Hl. discriminate Hl.
Qed.

Lemma encoder_accepts_iff_legal_witness :
  (Forall legal [0x41; 0xD7FF; 0xE000] <->
   exists b, ConvertUTF32toUTF8 [0x41; 0xD7FF; 0xE000] = (b, None)) /\
  (~ Forall legal [0x41; 0xD7FF; 0xE000] <->
   ConvertUTF32toUTF8 [0x41; 0xD7FF; 0xE000] = ([], Some ErrInvalidSource)).
Proof.
  apply (encoder_accepts_iff_legal [0x41; 0xD7FF; 0xE000]).
  repeat constructor; lia.
Defined.

(** ** Concatenation *)

(** X4.  Encoding a concatenation: the concatenation of the two encodings
    when both succeed, a failure when either fails. *)
Theorem encode_app (s1 s2 : list UTF32) :
  ConvertUTF32toUTF8 (s1 ++ s2) =
  match ConvertUTF32toUTF8 s1, ConvertUTF32toUTF8 s2 with
  | (b1, None), (b2, None) => (b1 ++ b2, None)
  | _, _ => ([], Some ErrInvalidSource)
  end.
Proof.
  rewrite !ConvertUTF32toUTF8_spec, forallb_app, flat_map_app.
  destruct (forallb encodable s1), (forallb encodable s2); reflexivity.
Qed.

(** The accumulated result is only ever extended. *)
Lemma decode_loop_prepend src i ret : forall pre,
  decode_loop src i (pre ++ ret) = prepend pre (decode_loop src i ret).
Proof.
  pattern i, ret, (decode_loop src i ret).
  apply decode_loop_passes; clear i ret.
  - intros i ret Hge pre. rewrite decode_loop_eq.
    destruct (decide _) as [Hlt | _]; [contradiction | reflexivity].
  - intros i ret Hlt Ht pre. rewrite decode_loop_eq.
    destruct (decide _) as [_ | Hge]; [|contradiction]. rewrite Ht. reflexivity.
  - intros i ret Hlt Ht Ho pre. rewrite decode_loop_eq.
    destruct (decide _) as [_ | Hge]; [|contradiction].
    rewrite Ht, Ho. reflexivity.
  - intros i ret Hlt Ht Ho IH pre. rewrite (decode_loop_eq src i (pre ++ ret)).
    destruct (decide _) as [_ | Hge]; [|contradiction].
    rewrite Ht, Ho, <- app_assoc. apply IH.
Qed.

(** Decoding behind a prefix is decoding the rest. *)
Lemma decode_loop_behind pre l i ret :
  decode_loop (pre ++ l) (length pre + i) ret = decode_loop l i ret.
Proof.
  pattern i, ret, (decode_loop l i ret).
  apply decode_loop_passes; clear i ret.
  - intros i ret Hge. rewrite decode_loop_eq.
    destruct (decide _) as [Hlt | _]; [|reflexivity].
    rewrite length_app in Hlt. lia.
  - intros i ret Hlt Ht. rewrite decode_loop_eq.
    destruct (decide _) as [_ | Hge]; [|rewrite length_app in Hge; lia].
    rewrite truncated_app, Ht. reflexivity.
  - intros i ret Hlt Ht Ho. rewrite decode_loop_eq.
    destruct (decide _) as [_ | Hge]; [|rewrite length_app in Hge; lia].
    rewrite truncated_app, Ht, decode_char_app. cbn [snd]. rewrite Ho. reflexivity.
  - intros i ret Hlt Ht Ho IH. rewrite decode_loop_eq.
    destruct (decide _) as [_ | Hge]; [|rewrite length_app in Hge; lia].
    rewrite truncated_app, Ht, decode_char_app. cbn [fst snd]. rewrite Ho.
    rewrite <- IH. f_equal. lia.
Qed.

(** Reading inside the first part of a concatenation. *)
Lemma at_index_app_l (b1 b2 : list byte) (i : nat) :
  (i < length b1)%nat ->
  at_index (b1 ++ b2) (Z.of_nat i) = at_index b1 (Z.of_nat i).
Proof.
  intros H. unfold at_index. rewrite Nat2Z.id. apply lookup_total_app_l, H.
Qed.

Lemma read_extra_app_l n (b1 b2 : list byte) : forall i ch,
  (i + n <= length b1)%nat ->
  read_extra n (b1 ++ b2) i ch = read_extra n b1 i ch.
Proof.
  induction n as [|n IH]; intros i ch H; simpl; [reflexivity|].
  rewrite at_index_app_l by lia. apply IH. lia.
Qed.

Lemma truncated_app_l (b1 b2 : list byte) i :
  (i < length b1)%nat -> truncated b1 i = false ->
  truncated (b1 ++ b2) i = false.
Proof.
  unfold truncated. intros Hlt Ht. rewrite at_index_app_l by exact Hlt.
  apply Z.leb_gt in Ht. apply Z.leb_gt. rewrite length_app. lia.
Qed.

Lemma decode_char_app_l (b1 b2 : list byte) i :
  (i < length b1)%nat -> truncated b1 i = false ->
  decode_char (b1 ++ b2) i = decode_char b1 i.
Proof.
  unfold truncated, decode_char. intros Hlt Ht. apply Z.leb_gt in Ht.
  rewrite at_index_app_l by exact Hlt.
  set (extra := at_index trailingBytesForUTF8 (at_index b1 (Z.of_nat i))) in *.
  rewrite read_extra_app_l by lia.
  pose proof (read_extra_cursor (Z.to_nat extra) b1 i 0) as F.
  destruct (read_extra _ b1 i 0) as [i' ch]. cbn [fst] in F.
  rewrite at_index_app_l by lia. reflexivity.
Qed.

(** A successful scan of [b1] is also the scan of [b1 ++ b2] up to the end of
    [b1], where it stops exactly. *)
Lemma decode_loop_extend (b1 b2 : list byte) i ret :
  (i <= length b1)%nat -> forall s, decode_loop b1 i ret = (s, None) ->
  decode_loop (b1 ++ b2) i ret = decode_loop (b1 ++ b2) (length b1) s.
Proof.
  pattern i, ret, (decode_loop b1 i ret).
  apply decode_loop_passes; clear i ret.
  - intros i ret Hge Hle s [= <-]. f_equal. lia.
  - intros i ret _ _ _ s [=].
  - intros i ret _ _ _ _ s [=].
  - intros i ret Hlt Ht Ho IH Hle s E.
    rewrite decode_loop_eq.
    destruct (decide _) as [_ | Hge]; [|rewrite length_app in Hge; lia].
    rewrite (truncated_app_l b1 b2 i Hlt Ht), (decode_char_app_l b1 b2 i Hlt Ht), Ho.
    apply IH; [|exact E].
    rewrite decode_char_cursor. unfold truncated in Ht. apply Z.leb_gt in Ht.
    unfold extra_at. lia.
Qed.

Lemma ConvertUTF8toUTF32_app (b1 b2 : list byte) (s1 : list UTF32) :
  ConvertUTF8toUTF32 b1 = (s1, None) ->
  ConvertUTF8toUTF32 (b1 ++ b2) = prepend s1 (ConvertUTF8toUTF32 b2).
Proof.
  intros H. unfold ConvertUTF8toUTF32 in *.
  rewrite (decode_loop_extend b1 b2 0 [] (Nat.le_0_l _) s1 H).
  rewrite <- (Nat.add_0_r (length b1)), decode_loop_behind.
  rewrite <- (app_nil_r s1) at 1. apply (decode_loop_prepend b2 0 [] s1).
Qed.

(** X5.  Decoding a concatenation whose first part decodes on its own: the
    code points of the first part followed by those of the second, or the
    failure of the second. *)
Theorem decode_app (b1 b2 : list byte) (s1 : list UTF32) :
  ConvertUTF8toUTF32 b1 = (s1, None) ->
  ConvertUTF8toUTF32 (b1 ++ b2) =
  match ConvertUTF8toUTF32 b2 with
  | (s2, None) => (s1 ++ s2, None)
  | (_, Some e) => ([], Some e)
  end.
Proof. apply ConvertUTF8toUTF32_app. Qed.

Lemma decode_app_witness :
  ConvertUTF8toUTF32 ([0x41; 0xC3; 0xA9] ++ [0xE2; 0x82; 0xAC; 0x42]) =
  match ConvertUTF8toUTF32 [0xE2; 0x82; 0xAC; 0x42] with
  | (s2, None) => ([0x41; 0xE9] ++ s2, None)
  | (_, Some e) => ([], Some e)
  end.
Proof.
  apply (decode_app [0x41; 0xC3; 0xA9] [0xE2; 0x82; 0xAC; 0x42]).
  vm_compute. reflexivity.
Defined.

(** ** Sizes *)

Lemma trailing_bounds b : is_byte b -> 0 <= at_index trailingBytesForUTF8 b <= 5.
Proof.
  intros Hb. rewrite (trailing_table b Hb). unfold trailing_by_range.
  repeat match goal with
         | |- context [?a <? ?b] => destruct (Z.ltb_spec a b)
         end; lia.
Qed.

Lemma at_index_byte (src : list byte) (i : nat) :
  Forall is_byte src -> (i < length src)%nat -> is_byte (at_index src (Z.of_nat i)).
Proof.
  intros Hs Hlt. unfold at_index. rewrite Nat2Z.id.
  rewrite Forall_lookup in Hs. apply (Hs i).
  apply list_lookup_lookup_total_lt, Hlt.
Qed.

Lemma decode_loop_sizes (src : list byte) i ret :
  Forall is_byte src -> (i <= length src)%nat ->
  forall s, decode_loop src i ret = (s, None) ->
  (length ret <= length s)%nat /\
  (length s - length ret <= length src - i)%nat /\
  (length src - i <= 6 * (length s - length ret))%nat.
Proof.
  intros Hs. pattern i, ret, (decode_loop src i ret).
  apply decode_loop_passes; clear i ret.
  - intros i ret Hge Hle s [= <-]. lia.
  - intros i ret _ _ _ s [=].
  - intros i ret _ _ _ _ s [=].
  - intros i ret Hlt Ht Ho IH Hle s E.
    pose proof (trailing_bounds _ (at_index_byte src i Hs Hlt)) as Hb.
    unfold truncated in Ht. apply Z.leb_gt in Ht.
    rewrite decode_char_cursor in IH, E. unfold extra_at in IH, E.
    specialize (IH ltac:(lia) s E). rewrite length_app in IH. cbn [length] in IH.
    lia.
Qed.

(** X9.  A successful decoding returns at most one code point per byte and
    at least one per six bytes. *)
Theorem decoded_length_bounds (src : list byte) (s : list UTF32) :
  Forall is_byte src ->
  ConvertUTF8toUTF32 src = (s, None) ->
  (length s <= length src <= 6 * length s)%nat.
Proof.
  intros Hs H.
  pose proof (decode_loop_sizes src 0 [] Hs (Nat.le_0_l _) s H) as B.
  cbn [length] in B. lia.
Qed.

Lemma decoded_length_bounds_witness :
  (length [0; 0x41]%Z <= length [0xFC; 0x80; 0x80; 0x80; 0x80; 0x80; 0x41]%Z
   <= 6 * length [0; 0x41]%Z)%nat.
Proof.
  apply (decoded_length_bounds [0xFC; 0x80; 0x80; 0x80; 0x80; 0x80; 0x41]).
  - repeat constructor; unfold is_byte; lia.
  - vm_compute. reflexivity.
Defined.

(** ** The bytes the encoder writes *)

Lemma encode_one ch :
  legal ch -> ConvertUTF32toUTF8 [ch] = (char_bytes ch, None).
Proof.
  intros L. rewrite ConvertUTF32toUTF8_spec. cbn [forallb flat_map].
  rewrite (legal_encodable ch L), app_nil_r. reflexivity.
Qed.

(** X7.  The encoding of one legal code point is well formed: a lead byte
    below 0x80 or in C2..F4 for which the table announces exactly the number
    of bytes that follow, and continuation bytes in 80..BF. *)
Theorem encoded_char_well_formed (ch : UTF32) :
  legal ch ->
  exists (b0 : byte) (rest : list byte),
    ConvertUTF32toUTF8 [ch] = (b0 :: rest, None) /\
    at_index trailingBytesForUTF8 b0 = Z.of_nat (length rest) /\
    (b0 < 0x80 \/ 0xC2 <= b0 <= 0xF4) /\
    Forall (fun b => 0x80 <= b <= 0xBF) rest.
Proof.
  intros L. rewrite (encode_one ch L). destruct L as [Hr Hs].
  assert (Hc : 0 <= ch < 0x80 \/ 0x80 <= ch < 0x800 \/
               0x800 <= ch < 0x10000 \/ 0x10000 <= ch < 0x110000) by lia.
  destruct Hc as [H | [H | [H | H]]].
  - rewrite (char_bytes_1 ch H). exists ch, []. split; [reflexivity|].
    split; [apply trailing_of; [unfold is_byte; lia | range_case]|].
    split; [lia | constructor].
  - rewrite (char_bytes_2 ch H). eexists _, _. split; [reflexivity|].
    split; [apply trailing_of; [unfold is_byte; zdiv | range_case]|].
    split; [zdiv | repeat constructor; zdiv].
  - rewrite (char_bytes_3 ch H). eexists _, _. split; [reflexivity|].
    split; [apply trailing_of; [unfold is_byte; zdiv | range_case]|].
    split; [zdiv | repeat constructor; zdiv].
  - rewrite (char_bytes_4 ch H). eexists _, _. split; [reflexivity|].
    split; [apply trailing_of; [unfold is_byte; zdiv | range_case]|].
    split; [zdiv | repeat constructor; zdiv].
Qed.

Lemma encoded_char_well_formed_witness :
  exists (b0 : byte) (rest : list byte),
    ConvertUTF32toUTF8 [0x20AC] = (b0 :: rest, None) /\
    at_index trailingBytesForUTF8 b0 = Z.of_nat (length rest) /\
    (b0 < 0x80 \/ 0xC2 <= b0 <= 0xF4) /\
    Forall (fun b => 0x80 <= b <= 0xBF) rest.
Proof. apply (encoded_char_well_formed 0x20AC). unfold legal. lia. Defined.

(** X8.  The encoder is injective on [uint32] values: two inputs encoded to
    the same bytes are equal. *)
Theorem encoder_injective (s1 s2 : list UTF32) (b : list byte) :
  Forall (fun ch => 0 <= ch < 2 ^ 32) s1 ->
  Forall (fun ch => 0 <= ch < 2 ^ 32) s2 ->
  ConvertUTF32toUTF8 s1 = (b, None) ->
  ConvertUTF32toUTF8 s2 = (b, None) ->
  s1 = s2.
Proof.
  intros U1 U2 H1 H2.
  assert (L : forall s, Forall (fun ch => 0 <= ch < 2 ^ 32) s ->
                        ConvertUTF32toUTF8 s = (b, None) ->
                        ConvertUTF8toUTF32 b = (s, None)).
  { intros s U H. apply ConvertUTF32toUTF8_success in H as [E ->].
    apply convert_legal. rewrite forallb_forall in E.
    apply List.Forall_forall. intros ch Hin. apply encodable_legal.
    - rewrite List.Forall_forall in U. apply (U ch Hin).
    - apply E, Hin. }
  pose proof (L s1 U1 H1) as D1. pose proof (L s2 U2 H2) as D2.
  rewrite D1 in D2. injection D2 as ->. reflexivity.
Qed.

Lemma encoder_injective_witness : [0x41; 0x20AC] = [0x41; 0x20AC].
Proof.
  apply (encoder_injective _ _ [0x41; 0xE2; 0x82; 0xAC]);
    try (repeat constructor; lia); vm_compute; reflexivity.
Defined.

(** ** Bytes the decoder takes as they are *)

(** A buffer holding one character. *)
Lemma decode_single (l : list byte) (ch : UTF32) :
  truncated l 0 = false ->
  decode_char l 0 = ((length l - 1)%nat, ch) ->
  out_of_range ch = false ->
  ConvertUTF8toUTF32 l = ([ch], None).
Proof.
  intros Ht Hd Ho. unfold ConvertUTF8toUTF32. rewrite decode_loop_eq.
  destruct (decide _) as [Hlt | Hge].
  - rewrite Ht, Hd. cbn [fst snd]. rewrite Ho, decode_loop_eq.
    destruct (decide _) as [Hlt' | _]; [lia | reflexivity].
  - unfold truncated in Ht. apply Z.leb_gt in Ht.
    assert (E : length l = 0%nat) by lia.
    destruct l; [|discriminate E].
    vm_compute in Ht. discriminate Ht.
Qed.

Lemma decode_low_byte b :
  0 <= b < 0xC0 -> ConvertUTF8toUTF32 [b] = ([b], None).
Proof.
  intros H.
  assert (T : at_index trailingBytesForUTF8 b = 0)
    by (apply trailing_of; [unfold is_byte; lia | range_case]).
  apply decode_single.
  - rewrite truncated_cons, T. reflexivity.
  - rewrite (decode_char_len1 b [] T). f_equal.
    rewrite u32_add_r. unfold u32. change (2 ^ 32) with 4294967296. zdiv.
  - unfold out_of_range, UniMaxLegalUTF32, UniSurHighStart.
    destruct (Z.ltb_spec 0x0010ffff b); [lia|].
    destruct (Z.leb_spec 0xd800 b); [lia|]. reflexivity.
Qed.

(** X10.  Bytes below 0xC0 are decoded one by one to themselves, the
    continuation bytes 80..BF too when they stand where a character starts;
    code points below 0x80 are encoded to themselves. *)
Theorem low_bytes_unchanged :
  (forall src : list byte,
      Forall (fun b => 0 <= b < 0xC0) src ->
      ConvertUTF8toUTF32 src = (src, None)) /\
  (forall s : list UTF32,
      Forall (fun ch => 0 <= ch < 0x80) s ->
      ConvertUTF32toUTF8 s = (s, None)).
Proof.
  split.
  - induction 1 as [|b src Hb Hs IH]; [reflexivity|].
    pose proof (ConvertUTF8toUTF32_app [b] src [b] (decode_low_byte b Hb)) as A.
    etransitivity; [exact A|]. rewrite IH. reflexivity.
  - intros s Hs. rewrite ConvertUTF32toUTF8_spec, (ascii_encodable s Hs).
    f_equal. induction Hs as [|ch s Hch Hs IH]; [reflexivity|].
    cbn [flat_map]. rewrite (char_bytes_1 ch Hch), IH. reflexivity.
Qed.

Lemma low_bytes_unchanged_witness :
  ConvertUTF8toUTF32 [0x41; 0x80; 0xBF; 0x7F] = ([0x41; 0x80; 0xBF; 0x7F], None) /\
  ConvertUTF32toUTF8 [0x41; 0x00; 0x7F] = ([0x41; 0x00; 0x7F], None).
Proof.
  split.
  - apply (proj1 low_bytes_unchanged). repeat constructor; lia.
  - apply (proj2 low_bytes_unchanged). repeat constructor; lia.
Defined.

(** X12.  The decoder fails with [ErrInvalidSource] when the value
    accumulated at a character start exceeds 0x10FFFF. *)
Theorem too_large_rejected (src : list byte) (i : nat) :
  char_start src i -> (i < length src)%nat -> truncated src i = false ->
  0x10FFFF < snd (decode_char src i) ->
  ConvertUTF8toUTF32 src = ([], Some ErrInvalidSource).
Proof.
  intros Hi Hlt Ht Hv. apply (decode_out_of_range src i Hi Hlt Ht).
  unfold out_of_range, UniMaxLegalUTF32.
  destruct (Z.ltb_spec 0x0010ffff (snd (decode_char src i))); [reflexivity | lia].
Qed.

Lemma too_large_rejected_witness :
  ConvertUTF8toUTF32 [0x41; 0xF4; 0x90; 0x80; 0x80] = ([], Some ErrInvalidSource).
Proof.
  apply (too_large_rejected [0x41; 0xF4; 0x90; 0x80; 0x80] 1%nat).
  - apply (char_start_next [0x41; 0xF4; 0x90; 0x80; 0x80] 0%nat);
      [apply char_start_first | simpl; lia | reflexivity].
  - simpl. lia.
  - reflexivity.
  - vm_compute. reflexivity.
Defined.

Lemma decode_char_len5 b0 b1 b2 b3 b4 rest :
  at_index trailingBytesForUTF8 b0 = 4 ->
  decode_char (b0 :: b1 :: b2 :: b3 :: b4 :: rest) 0 =
  (4%nat,
   u32 (u32 (Z.shiftl
     (u32 (u32 (Z.shiftl
       (u32 (u32 (Z.shiftl (u32 (u32 (Z.shiftl (u32 (0 + b0)) 6) + b1)) 6)
             + b2)) 6) + b3)) 6)
        + u32 (b4 - 0xFA082080))).
Proof.
  intros H. unfold decode_char.
  change (at_index (b0 :: b1 :: b2 :: b3 :: b4 :: rest) (Z.of_nat 0)) with b0.
  rewrite H. reflexivity.
Qed.

Lemma decode_char_len6 b0 b1 b2 b3 b4 b5 rest :
  at_index trailingBytesForUTF8 b0 = 5 ->
  decode_char (b0 :: b1 :: b2 :: b3 :: b4 :: b5 :: rest) 0 =
  (5%nat,
   u32 (u32 (Z.shiftl
     (u32 (u32 (Z.shiftl
       (u32 (u32 (Z.shiftl
         (u32 (u32 (Z.shiftl (u32 (u32 (Z.shiftl (u32 (0 + b0)) 6) + b1)) 6)
               + b2)) 6) + b3)) 6) + b4)) 6)
        + u32 (b5 - 0x82082080))).
Proof.
  intros H. unfold decode_char.
  change (at_index (b0 :: b1 :: b2 :: b3 :: b4 :: b5 :: rest) (Z.of_nat 0)) with b0.
  rewrite H. reflexivity.
Qed.

Ltac norm_pow :=
  repeat match goal with
         | |- context [2 ^ ?e] =>
             let v := eval vm_compute in (2 ^ e) in change (2 ^ e) with v
         | H : context [2 ^ ?e] |- _ =>
             let v := eval vm_compute in (2 ^ e) in change (2 ^ e) with v in H
         end.

Ltac wrap_arith :=
  f_equal; rewrite u32_add_r, ?Z.shiftl_mul_pow2 by lia;
  unfold u32; change (2 ^ 32) with 4294967296; change (2 ^ 6) with 64;
  zdiv.

(** X11.  The decoder accepts every padded form of a legal code point that
    fits it, of 1 to 6 bytes: overlong forms and the forms of 5 and 6 bytes
    included. *)
Theorem padded_forms_accepted (k : nat) (ch : UTF32) :
  (1 <= k <= 6)%nat -> legal ch -> ch < form_capacity k ->
  ConvertUTF8toUTF32 (padded_form k ch) = ([ch], None).
Proof.
  intros Hk L Hc. pose proof (legal_in_range ch L) as Ho. destruct L as [Hr Hs].
  assert (K : k = 1%nat \/ k = 2%nat \/ k = 3%nat \/ k = 4%nat \/ k = 5%nat \/
              k = 6%nat) by lia.
  destruct K as [-> | [-> | [-> | [-> | [-> | ->]]]]];
    cbn [padded_form form_capacity] in *; norm_pow; rewrite ?Z.div_1_r.
  - assert (T : at_index trailingBytesForUTF8 ch = 0)
      by (apply trailing_of; [unfold is_byte; lia | range_case]).
    apply decode_single; [rewrite truncated_cons, T; reflexivity | | exact Ho].
    rewrite decode_char_len1 by exact T. wrap_arith.
  - assert (T : at_index trailingBytesForUTF8 (0xC0 + ch / 64) = 1)
      by (apply trailing_of; [unfold is_byte; zdiv | range_case]).
    apply decode_single; [rewrite truncated_cons, T; reflexivity | | exact Ho].
    rewrite decode_char_len2 by exact T. wrap_arith.
  - assert (T : at_index trailingBytesForUTF8 (0xE0 + ch / 4096) = 2)
      by (apply trailing_of; [unfold is_byte; zdiv | range_case]).
    apply decode_single; [rewrite truncated_cons, T; reflexivity | | exact Ho].
    rewrite decode_char_len3 by exact T. wrap_arith.
  - assert (T : at_index trailingBytesForUTF8 (0xF0 + ch / 262144) = 3)
      by (apply trailing_of; [unfold is_byte; zdiv | range_case]).
    apply decode_single; [rewrite truncated_cons, T; reflexivity | | exact Ho].
    rewrite decode_char_len4 by exact T. wrap_arith.
  - assert (T : at_index trailingBytesForUTF8 (0xF8 + ch / 16777216) = 4)
      by (apply trailing_of; [unfold is_byte; zdiv | range_case]).
    apply decode_single; [rewrite truncated_cons, T; reflexivity | | exact Ho].
    rewrite decode_char_len5 by exact T. wrap_arith.
  - assert (T : at_index trailingBytesForUTF8 (0xFC + ch / 1073741824) = 5)
      by (apply trailing_of; [unfold is_byte; zdiv | range_case]).
    apply decode_single; [rewrite truncated_cons, T; reflexivity | | exact Ho].
    rewrite decode_char_len6 by exact T. wrap_arith.
Qed.

Lemma padded_forms_accepted_witness :
  ConvertUTF8toUTF32 [0xFC; 0x80; 0x80; 0x82; 0x82; 0xAC] = ([0x20AC], None) /\
  ConvertUTF8toUTF32 [0xE0; 0x81; 0x81] = ([0x41], None).
Proof.
  split.
  - apply (padded_forms_accepted 6 0x20AC); [lia | unfold legal; lia | reflexivity].
  - apply (padded_forms_accepted 3 0x41); [lia | unfold legal; lia | reflexivity].
Defined.

(** ** No index is out of range *)

Lemma store_checked_ok (l : list Z) (i : nat) (x : Z) :
  (i < length l)%nat -> store_checked l i x = Some (<[i := x]> l).
Proof.
  intros H. unfold store_checked.
  destruct (decide _) as [_ | Hge]; [reflexivity | contradiction].
Qed.

Lemma index_checked_ok (l : list Z) (i : Z) :
  0 <= i < Z.of_nat (length l) -> index_checked l i = Some (at_index l i).
Proof.
  intros H. unfold index_checked, at_index.
  destruct (Z.ltb_spec i 0); [lia|].
  apply list_lookup_lookup_total_lt. lia.
Qed.

Lemma write_bytes_checked_ok n ch (ret : list byte) :
  1 <= n <= 4 ->
  write_bytes_checked n ch (length ret) (ret ++ replicate (Z.to_nat n) 0) =
  Some (write_bytes n ch (length ret) (ret ++ replicate (Z.to_nat n) 0)).
Proof.
  intros Hn.
  assert (Hc : n = 1 \/ n = 2 \/ n = 3 \/ n = 4) by lia.
  destruct Hc as [-> | [-> | [-> | ->]]];
    cbn [write_bytes_checked write_bytes];
    unfold case4_checked, case3_checked, case2_checked, case1_checked,
      case4, case3, case2, case1;
    rewrite (index_checked_ok firstByteMark) by (cbn [length firstByteMark]; lia);
    cbn [mbind option_bind];
    repeat (rewrite store_checked_ok
              by (rewrite ?length_insert, length_app, length_replicate; lia);
            cbn [mbind option_bind]);
    reflexivity.
Qed.

Lemma encode_loop_checked_ok src : forall ret : list byte,
  encode_loop_checked src ret (length ret) =
  Some (encode_loop src ret (length ret)).
Proof.
  induction src as [|ch src IH]; intros ret; cbn [encode_loop_checked encode_loop];
    [reflexivity|].
  destruct ((UniSurHighStart <=? ch) && (ch <=? UniSurLowEnd)); [reflexivity|].
  destruct (lookupBytesToWrite_cases ch) as [(Hle & He & Hn) | [Hgt E]].
  - destruct (lookupBytesToWrite ch) as [n e]. cbn [fst snd] in He, Hn. subst e.
    rewrite (write_bytes_checked_ok n ch ret Hn). cbn [mbind option_bind].
    rewrite write_bytes_app.
    replace (length ret + Z.to_nat n)%nat
      with (length (ret ++ write_bytes n ch 0 (replicate (Z.to_nat n) 0))).
    + apply IH.
    + rewrite length_app. f_equal.
      assert (Hc : n = 1 \/ n = 2 \/ n = 3 \/ n = 4) by lia.
      destruct Hc as [-> | [-> | [-> | ->]]]; reflexivity.
  - rewrite E. reflexivity.
Qed.

(** X13.  The encoder never indexes out of range: with every index checked
    it returns what [ConvertUTF32toUTF8] returns, on every input. *)
Theorem encoder_indices_in_range (src : list UTF32) :
  ConvertUTF32toUTF8_checked src = Some (ConvertUTF32toUTF8 src).
Proof. apply (encode_loop_checked_ok src []). Qed.

Lemma decode_loop_checked_eq src i ret :
  decode_loop_checked src i ret =
  if decide (i < length src)%nat then
    match decode_pass_checked src i with
    | None => None
    | Some (PassFail e) => Some ([], Some e)
    | Some (PassChar i' ch) => decode_loop_checked src (S i') (ret ++ [ch])
    end
  else Some (ret, None).
Proof.
  rewrite decode_loop_checked_equation_1.
  destruct (decide _) as [Hlt | Hge]; [|reflexivity].
  cbn [decode_loop_checked_unfold_clause_1].
  assert (G : forall p : {b : option pass | decode_pass_checked src i = b},
             decode_loop_checked_unfold_clause_1_clause_2 src i p Hlt ret =
             match proj1_sig p with
             | None => None
             | Some (PassFail e) => Some ([], Some e)
             | Some (PassChar i' ch) => decode_loop_checked src (S i') (ret ++ [ch])
             end).
  { intros [[[e | i' ch] |] H]; reflexivity. }
  apply (G (inspect (decode_pass_checked src i))).
Qed.

Lemma read_extra_checked_ok n (src : list byte) : forall i ch,
  (i + n <= length src)%nat ->
  read_extra_checked n src i ch = Some (read_extra n src i ch).
Proof.
  induction n as [|n IH]; intros i ch H; cbn [read_extra_checked read_extra];
    [reflexivity|].
  rewrite index_checked_ok by (unfold byte in *; lia).
  cbn [mbind option_bind]. apply IH. lia.
Qed.

(** One checked pass agrees with the tests and the accumulation of the loop. *)
Lemma decode_pass_checked_ok (src : list byte) i :
  Forall is_byte src -> (i < length src)%nat ->
  decode_pass_checked src i =
  Some (if truncated src i then PassFail ErrInvalidSource
        else if out_of_range (snd (decode_char src i))
             then PassFail ErrInvalidSource
             else PassChar (fst (decode_char src i)) (snd (decode_char src i))).
Proof.
  intros Hs Hlt. unfold decode_pass_checked, truncated, decode_char.
  pose proof (at_index_byte src i Hs Hlt) as Hb.
  pose proof (trailing_bounds _ Hb) as He.
  rewrite (index_checked_ok src) by (unfold byte in *; lia).
  cbn [mbind option_bind].
  rewrite index_checked_ok by (unfold is_byte in Hb; cbn [length trailingBytesForUTF8]; lia).
  cbn [mbind option_bind].
  set (extra := at_index trailingBytesForUTF8 (at_index src (Z.of_nat i))) in *.
  destruct (Z.leb_spec (Z.of_nat (length src)) (Z.of_nat i + extra)) as [|Hn];
    [reflexivity|].
  rewrite read_extra_checked_ok by (unfold byte in *; lia).
  cbn [mbind option_bind].
  pose proof (read_extra_cursor (Z.to_nat extra) src i 0) as F.
  destruct (read_extra _ src i 0) as [i' ch]. cbn [fst snd] in *.
  rewrite (index_checked_ok src) by (unfold byte in *; lia). cbn [mbind option_bind].
  rewrite index_checked_ok by (cbn [length offsetsFromUTF8]; lia).
  cbn [mbind option_bind].
  destruct (out_of_range _); reflexivity.
Qed.

Lemma decode_loop_checked_ok (src : list byte) i ret :
  Forall is_byte src ->
  decode_loop_checked src i ret = Some (decode_loop src i ret).
Proof.
  intros Hs. pattern i, ret, (decode_loop src i ret).
  apply decode_loop_passes; clear i ret.
  - intros i ret Hge. rewrite decode_loop_checked_eq.
    destruct (decide _) as [Hlt | _]; [contradiction | reflexivity].
  - intros i ret Hlt Ht. rewrite decode_loop_checked_eq.
    destruct (decide _) as [_ | Hge]; [|contradiction].
    rewrite (decode_pass_checked_ok src i Hs Hlt), Ht. reflexivity.
  - intros i ret Hlt Ht Ho. rewrite decode_loop_checked_eq.
    destruct (decide _) as [_ | Hge]; [|contradiction].
    rewrite (decode_pass_checked_ok src i Hs Hlt), Ht, Ho. reflexivity.
  - intros i ret Hlt Ht Ho IH. rewrite decode_loop_checked_eq.
    destruct (decide _) as [_ | Hge]; [|contradiction].
    rewrite (decode_pass_checked_ok src i Hs Hlt), Ht, Ho. exact IH.
Qed.

(** X14.  The decoder never indexes out of range on a string of bytes: with
    every index checked it returns what [ConvertUTF8toUTF32] returns. *)
Theorem decoder_indices_in_range (src : list byte) :
  Forall is_byte src ->
  ConvertUTF8toUTF32_checked src = Some (ConvertUTF8toUTF32 src).
Proof. intros Hs. apply (decode_loop_checked_ok src 0 [] Hs). Qed.

Lemma decoder_indices_in_range_witness :
  ConvertUTF8toUTF32_checked [0x41; 0xE2; 0x82; 0xAC; 0xFD; 0x80] =
  Some (ConvertUTF8toUTF32 [0x41; 0xE2; 0x82; 0xAC; 0xFD; 0x80]).
Proof.
  apply decoder_indices_in_range. repeat constructor; unfold is_byte; lia.
Defined.

(** ** What the test accepts *)

Lemma check_elem_passed elem :
  check_elem elem = Passed <-> well_formed_elem elem.
Proof.
  unfold check_elem, well_formed_elem. split.
  - destruct (ConvertUTF8toUTF32 (str elem)) as [s [e|]] eqn:D; [discriminate|].
    pose proof (decode_loop_legal (str elem) 0 [] s (List.Forall_nil _) D) as L.
    destruct (ConvertUTF32toUTF8 s) as [b [e|]] eqn:E; [discriminate|].
    destruct (bool_decide (str elem = b)) eqn:B; [|discriminate].
    apply bool_decide_eq_true in B. subst b. cbn [negb].
    destruct (Z.eqb_spec (utf8len elem) (Z.of_nat (length (str elem))));
      [|discriminate].
    destruct (Z.eqb_spec (utf32len elem) (Z.of_nat (length s))); [|discriminate].
    intros _. exists s. auto.
  - intros (s & L & E & H8 & H32).
    destruct (convert_legal s L) as [E' D]. rewrite E in E'.
    injection E' as E'. rewrite E', D, <- E', E.
    rewrite bool_decide_eq_true_2 by reflexivity. cbn [negb].
    rewrite H8, H32, !Z.eqb_refl. reflexivity.
Qed.

(** X15.  [TestRoundTrip] ends without a failure exactly when every element
    of its table holds the encoding of some legal code points together with
    the length of that encoding and the number of these code points. *)
Theorem test_passes_iff (strs : list testData) :
  TestRoundTrip strs = Passed <-> Forall well_formed_elem strs.
Proof.
  induction strs as [|elem strs IH]; cbn [TestRoundTrip].
  - split; [constructor | reflexivity].
  - rewrite Forall_cons, <- IH, <- check_elem_passed.
    destruct (check_elem elem); split; try (intros [? ?]); try discriminate; auto.
Qed.

Lemma test_passes_iff_witness :
  TestRoundTrip
    [ {| str := [0x68; 0x65; 0x6C; 0x6C; 0x6F; 0x20; 0x77; 0x6F; 0x72; 0x6C; 0x64];
         utf8len := 11; utf32len := 11 |};
      {| str := [0x61]; utf8len := 1; utf32len := 1 |} ] = Passed.
Proof.
  apply (proj2 (test_passes_iff _)).
  repeat constructor.
  - exists [0x68; 0x65; 0x6C; 0x6C; 0x6F; 0x20; 0x77; 0x6F; 0x72; 0x6C; 0x64].
    repeat split; try reflexivity. repeat constructor; lia.
  - exists [0x61]. repeat split; try reflexivity. repeat constructor; lia.
Defined.

(** X16.  The encoder writes the shortest form: the bytes of a legal code
    point are its padded form of the length [lookupBytesToWrite] returns,
    which is the least length the code point fits. *)
Theorem encoder_shortest_form (ch : UTF32) :
  legal ch ->
  exists n : nat,
    (1 <= n <= 4)%nat /\
    lookupBytesToWrite ch = (Z.of_nat n, None) /\
    ConvertUTF32toUTF8 [ch] = (padded_form n ch, None) /\
    ch < form_capacity n /\
    (forall k : nat, (1 <= k < n)%nat -> form_capacity k <= ch).
Proof.
  intros L. rewrite (encode_one ch L). destruct L as [Hr Hs].
  assert (Hc : 0 <= ch < 0x80 \/ 0x80 <= ch < 0x800 \/
               0x800 <= ch < 0x10000 \/ 0x10000 <= ch < 0x110000) by lia.
  assert (Cap : forall k : nat,
             (k = 1%nat -> form_capacity k = 0x80) /\
             (k = 2%nat -> form_capacity k = 0x800) /\
             (k = 3%nat -> form_capacity k = 0x10000))
    by (intros k; repeat split; intros ->; reflexivity).
  destruct Hc as [H | [H | [H | H]]].
  - exists 1%nat. rewrite (char_bytes_1 ch H). repeat split; try lia.
    + unfold lookupBytesToWrite. destruct (Z.ltb_spec ch 0x80); [reflexivity | lia].
    + cbn [form_capacity]. lia.
  - exists 2%nat. rewrite (char_bytes_2 ch H). repeat split; try lia.
    + unfold lookupBytesToWrite. destruct (Z.ltb_spec ch 0x80); [lia|].
      destruct (Z.ltb_spec ch 0x800); [reflexivity | lia].
    + cbn [padded_form]. rewrite Z.div_1_r. reflexivity.
    + cbn [form_capacity]. lia.
    + intros k Hk. destruct (Cap k) as (C1 & _). rewrite C1 by lia. lia.
  - exists 3%nat. rewrite (char_bytes_3 ch H). repeat split; try lia.
    + unfold lookupBytesToWrite. destruct (Z.ltb_spec ch 0x80); [lia|].
      destruct (Z.ltb_spec ch 0x800); [lia|].
      destruct (Z.ltb_spec ch 0x10000); [reflexivity | lia].
    + cbn [padded_form]. rewrite Z.div_1_r. reflexivity.
    + cbn [form_capacity]. lia.
    + intros k Hk. destruct (Cap k) as (C1 & C2 & _).
      assert (K : k = 1%nat \/ k = 2%nat) by lia.
      destruct K as [K | K]; [rewrite C1 by exact K | rewrite C2 by exact K]; lia.
  - exists 4%nat. rewrite (char_bytes_4 ch H). repeat split; try lia.
    + unfold lookupBytesToWrite, UniMaxLegalUTF32.
      destruct (Z.ltb_spec ch 0x80); [lia|].
      destruct (Z.ltb_spec ch 0x800); [lia|].
      destruct (Z.ltb_spec ch 0x10000); [lia|].
      destruct (Z.leb_spec ch 0x0010ffff); [reflexivity | lia].
    + cbn [padded_form]. rewrite Z.div_1_r. reflexivity.
    + cbn [form_capacity]. lia.
    + intros k Hk. destruct (Cap k) as (C1 & C2 & C3).
      assert (K : k = 1%nat \/ k = 2%nat \/ k = 3%nat) by lia.
      destruct K as [K | [K | K]];
        [rewrite C1 by exact K | rewrite C2 by exact K | rewrite C3 by exact K]; lia.
Qed.

Lemma encoder_shortest_form_witness :
  exists n : nat,
    (1 <= n <= 4)%nat /\
    lookupBytesToWrite 0x20AC = (Z.of_nat n, None) /\
    ConvertUTF32toUTF8 [0x20AC] = (padded_form n 0x20AC, None) /\
    0x20AC < form_capacity n /\
    (forall k : nat, (1 <= k < n)%nat -> form_capacity k <= 0x20AC).
Proof. apply (encoder_shortest_form 0x20AC). unfold legal. lia. Defined.
